(** * The transcription script 文字おこし.py: subtitle timing, caption grouping
      and output serialisation

    A shallow embedding of the pure core of the script: [srt_time],
    [natural_sort_key], [tokens_to_text], [build_srt_from_subwords] and the
    loops of [main] that accumulate the transcript and write the two files.

    Conventions of the model.
    - A Python [str] is a list of Unicode code points ([pystr]); [len] counts
      code points and comparison is lexicographic by code point.
    - A Python [float] is an exact rational ([Q]): [+], [-], [*] and the
      comparisons are those of the rationals, so binary64 rounding error,
      infinities and NaN are outside the model.  [round] is Python 3's
      built-in: to the nearest integer, a tie going to the even neighbour.
      Statements that depend on how a sum, a difference or a product is
      rounded are made on a second set of definitions, with the kernel's
      binary64 numbers ([srt_time_b64], [build_srt_from_subwords64]); a
      lemma checks that the arithmetic of the worked examples is exact in
      binary64.
    - A Python [int] is a [Z]; [//] and [%] with a positive divisor are
      [Z.div] and [Z.modulo].
    - ffmpeg and the recogniser are external: the functions take the
      directory listing and the recogniser's results as arguments. *)

From Stdlib Require Import ZArith QArith Qround List Bool Lia Lqa.
From Stdlib Require Import String Ascii Sorted Permutation.
From Stdlib Require Import Floats.
Import ListNotations.

Set Warnings "-inexact-float".

Local Open Scope Z_scope.

(** ** Python strings *)

Definition pystr := list Z.

(** An ASCII literal as a Python string. *)
Definition lit (s : string) : pystr :=
  map (fun a => Z.of_N (N_of_ascii a)) (list_ascii_of_string s).

Definition len (s : pystr) : Z := Z.of_nat (List.length s).

(** [str.isspace] for one code point (CPython's [_PyUnicode_IsWhitespace]). *)
Definition isspace (c : Z) : bool :=
  ((9 <=? c) && (c <=? 13)) || ((28 <=? c) && (c <=? 32))
  || (c =? 133) || (c =? 160) || (c =? 5760)
  || ((8192 <=? c) && (c <=? 8202))
  || (c =? 8232) || (c =? 8233) || (c =? 8239) || (c =? 8287) || (c =? 12288).

Fixpoint lstrip (s : pystr) : pystr :=
  match s with
  | c :: s' => if isspace c then lstrip s' else s
  | [] => []
  end.

Definition rstrip (s : pystr) : pystr := rev (lstrip (rev s)).

(** [s.strip()] *)
Definition strip (s : pystr) : pystr := rstrip (lstrip s).

(** [sep.join(parts)] *)
Fixpoint join (sep : pystr) (parts : list pystr) : pystr :=
  match parts with
  | [] => []
  | [x] => x
  | x :: rest => x ++ sep ++ join sep rest
  end.

(** Truth value of a string or of a list: non-empty. *)
Definition truthy {A : Type} (l : list A) : bool :=
  match l with [] => false | _ :: _ => true end.

(** Three-way comparison of two strings, code point by code point. *)
Fixpoint str_cmp (a b : pystr) : comparison :=
  match a, b with
  | [], [] => Eq
  | [], _ :: _ => Lt
  | _ :: _, [] => Gt
  | x :: a', y :: b' =>
      match x ?= y with
      | Eq => str_cmp a' b'
      | c => c
      end
  end.

Definition str_le (a b : pystr) : Prop := str_cmp a b <> Gt.

Fixpoint startswith (prefix s : pystr) : bool :=
  match prefix, s with
  | [], _ => true
  | _ :: _, [] => false
  | x :: p', y :: s' => (x =? y) && startswith p' s'
  end.

Definition endswith (suffix s : pystr) : bool :=
  startswith (rev suffix) (rev s).

(** [enumerate(l, start)] *)
Fixpoint enumerate {A : Type} (start : Z) (l : list A) : list (Z * A) :=
  match l with
  | [] => []
  | x :: l' => (start, x) :: enumerate (start + 1) l'
  end.

(** ** Decimal rendering of integers *)

Definition digit_char (d : Z) : Z := 48 + d.

Definition isdigit (c : Z) : bool := (48 <=? c) && (c <=? 57).

(** Digits of a non-negative integer, most significant first.  The fuel is
    one more than the binary logarithm, which bounds the number of decimal
    digits ([digits_value] below shows it is always enough). *)
Fixpoint digits_fuel (fuel : nat) (n : Z) (acc : pystr) : pystr :=
  match fuel with
  | O => acc
  | S f =>
      let acc' := digit_char (n mod 10) :: acc in
      if n <? 10 then acc' else digits_fuel f (n / 10) acc'
  end.

Definition digits (n : Z) : pystr :=
  digits_fuel (S (Z.to_nat (Z.log2 n))) n [].

(** [str(n)] for an integer. *)
Definition str_int (n : Z) : pystr :=
  if n <? 0 then 45 :: digits (- n) else digits n.

Definition zfill (w : nat) (ds : pystr) : pystr :=
  repeat (digit_char 0) (w - List.length ds) ++ ds.

(** The format specification [0wd] of an f-string: decimal, zero padded to a
    minimum width [w], the sign (if any) counted in the width. *)
Definition fmt_d (w : nat) (n : Z) : pystr :=
  if n <? 0 then 45 :: zfill (w - 1) (digits (- n)) else zfill w (digits n).

(** Value of a string of decimal digits, [None] when a character is not a
    digit or the string is empty (what [int] accepts of an unsigned
    numeral). *)
Fixpoint decode_from (acc : Z) (s : pystr) : option Z :=
  match s with
  | [] => Some acc
  | c :: s' => if isdigit c then decode_from (10 * acc + (c - 48)) s' else None
  end.

Definition decode_dec (s : pystr) : option Z :=
  match s with
  | [] => None
  | _ => decode_from 0 s
  end.

(** ** Time codec *)

(** Python 3 [round(x)]: nearest integer, ties to the even one. *)
Definition py_round (x : Q) : Z :=
  let f := Qfloor x in
  match (x - inject_Z f ?= 1 # 2)%Q with
  | Lt => f
  | Gt => f + 1
  | Eq => if Z.even f then f else f + 1
  end.

(** The millisecond count [srt_time] works on: the clamp and the rounding. *)
Definition srt_ms (seconds : Q) : Z :=
  let seconds := match (seconds ?= 0)%Q with Lt => 0%Q | _ => seconds end in
  py_round (seconds * 1000).

Definition srt_time (seconds : Q) : pystr :=
  let ms := srt_ms seconds in
  let h := ms / 3600000 in
  let ms := ms mod 3600000 in
  let m := ms / 60000 in
  let ms := ms mod 60000 in
  let s := ms / 1000 in
  let ms := ms mod 1000 in
  fmt_d 2 h ++ lit ":" ++ fmt_d 2 m ++ lit ":" ++ fmt_d 2 s ++ lit ","
    ++ fmt_d 3 ms.

(** ** Segment catalog *)

(** A segment file, by its name inside the segment directory. *)
Definition Path := pystr.

Fixpoint rfind_from (c : Z) (s : pystr) (i best : Z) : Z :=
  match s with
  | [] => best
  | x :: s' => rfind_from c s' (i + 1) (if x =? c then i else best)
  end.

(** [s.rfind(c)]: the last index of [c], or -1. *)
Definition rfind (c : Z) (s : pystr) : Z := rfind_from c s 0 (-1).

(** [p.stem]: the name without its last suffix (pathlib: the last dot counts
    only when it is neither the first nor the last character). *)
Definition stem (p : Path) : pystr :=
  let i := rfind 46 p in
  if (0 <? i) && (i <? len p - 1) then firstn (Z.to_nat i) p else p.

(** The first code points of the runs of ten decimal digits of Unicode
    (category Nd, Unicode 14.0 as in CPython 3.11): in each run the digits
    0 to 9 follow one another.  These are the characters that [\d] matches
    in a [str] pattern and that [int] reads. *)
Definition decimal_zeros : list Z :=
  [48; 1632; 1776; 1984; 2406; 2534; 2662; 2790; 2918; 3046; 3174; 3302;
   3430; 3558; 3664; 3792; 3872; 4160; 4240; 6112; 6160; 6470; 6608; 6784;
   6800; 6992; 7088; 7232; 7248; 42528; 43216; 43264; 43472; 43504; 43600;
   44016; 65296; 66720; 68912; 69734; 69872; 69942; 70096; 70384; 70736;
   70864; 71248; 71360; 71472; 71904; 72016; 72784; 73040; 73120; 92768;
   92864; 93008; 120782; 120792; 120802; 120812; 120822; 123200; 123632;
   125264; 130032].

(** The value of a decimal digit, [None] for any other character. *)
Definition decimal_value (c : Z) : option Z :=
  match find (fun z => (z <=? c) && (c <? z + 10)) decimal_zeros with
  | Some z => Some (c - z)
  | None => None
  end.

Definition isdecimal (c : Z) : bool :=
  match decimal_value c with Some _ => true | None => false end.

Fixpoint take_digits (s : pystr) : pystr :=
  match s with
  | c :: s' => if isdecimal c then c :: take_digits s' else []
  | [] => []
  end.

(** [re.search(r"(\d+)", s)]: the first maximal run of decimal digits. *)
Fixpoint first_digit_run (s : pystr) : option pystr :=
  match s with
  | [] => None
  | c :: s' =>
      if isdecimal c then Some (c :: take_digits s') else first_digit_run s'
  end.

(** Value of a string of ASCII digits, most significant first. *)
Definition int_of_digits (s : pystr) : Z :=
  fold_left (fun acc c => 10 * acc + (c - 48)) s 0.

(** [int(m.group(1))] of a run of decimal digits. *)
Definition int_of_decimals (s : pystr) : Z :=
  fold_left (fun acc c => 10 * acc + match decimal_value c with
                                     | Some d => d
                                     | None => 0
                                     end) s 0.

Definition natural_sort_key (p : Path) : Z * pystr :=
  (match first_digit_run (stem p) with
   | Some run => int_of_decimals run
   | None => -1
   end, p).

(** [<] on the key tuples: the numbers first, then the names. *)
Definition key_ltb (a b : Z * pystr) : bool :=
  match fst a ?= fst b with
  | Lt => true
  | Gt => false
  | Eq => match str_cmp (snd a) (snd b) with Lt => true | _ => false end
  end.

(** [sorted(l, key=natural_sort_key)]: a stable sort; an element goes in
    front of the first one whose key is not smaller than its own. *)
Fixpoint insert_by_key (p : Path) (l : list Path) : list Path :=
  match l with
  | [] => [p]
  | q :: l' =>
      if key_ltb (natural_sort_key q) (natural_sort_key p)
      then q :: insert_by_key p l'
      else p :: q :: l'
  end.

Fixpoint sorted_by_key (l : list Path) : list Path :=
  match l with
  | [] => []
  | p :: l' => insert_by_key p (sorted_by_key l')
  end.

(** [out_dir.glob("seg_*.wav")] on one name. *)
Definition glob_seg_wav (p : Path) : bool :=
  startswith (lit "seg_") p && endswith (lit ".wav") (skipn 4 p).

(** [segment_audio_from_video] after ffmpeg has run: [listing] is what the
    output directory then holds; [None] is the [RuntimeError] raised when no
    segment was written. *)
Definition segment_audio_from_video (listing : list Path) : option (list Path) :=
  let segs := sorted_by_key (filter glob_seg_wav listing) in
  if truthy segs then Some segs else None.

(** ** Caption assembler *)

Record Subword := { seconds : Q; token : pystr }.

Definition Entry := (Q * Q * pystr)%type.

Definition tokens_to_text (tokens : list pystr) : pystr :=
  strip (join [] tokens).

(** The local variables of [build_srt_from_subwords]. *)
Record AsmState := {
  entries : list Entry;
  cur_tokens : list pystr;
  cur_start : option Q;
  cur_last : option Q
}.

Definition asm_init : AsmState :=
  {| entries := []; cur_tokens := []; cur_start := None; cur_last := None |}.

(** One iteration of the loop over the subwords. *)
Definition asm_step (segment_offset max_line_sec : Q) (max_chars : Z)
    (pad_end_sec : Q) (st : AsmState) (sw : Subword) : AsmState :=
  let t := (seconds sw + segment_offset)%Q in
  let tok := token sw in
  match cur_start st with
  | None =>
      {| entries := entries st; cur_tokens := [tok];
         cur_start := Some t; cur_last := Some t |}
  | Some start =>
      let toks := cur_tokens st ++ [tok] in
      let text := tokens_to_text toks in
      if Qle_bool max_line_sec (t - start) || (max_chars <=? len text)
      then {| entries := entries st ++ [(start, (t + pad_end_sec)%Q, text)];
              cur_tokens := []; cur_start := None; cur_last := None |}
      else {| entries := entries st; cur_tokens := toks;
              cur_start := Some start; cur_last := Some t |}
  end.

Definition build_srt_from_subwords (subwords : list Subword)
    (segment_offset max_line_sec : Q) (max_chars : Z) (pad_end_sec : Q)
    : list Entry :=
  if truthy subwords then
    let st := fold_left
                (asm_step segment_offset max_line_sec max_chars pad_end_sec)
                subwords asm_init in
    match cur_tokens st, cur_start st, cur_last st with
    | _ :: _, Some start, Some last =>
        entries st
          ++ [(start, (last + pad_end_sec)%Q, tokens_to_text (cur_tokens st))]
    | _, _, _ => entries st
    end
  else [].

(** The default arguments. *)
Definition default_max_line_sec : Q := 4.
Definition default_max_chars : Z := 26.
Definition default_pad_end_sec : Q := 1 # 4.

Definition build_srt_default (subwords : list Subword) (segment_offset : Q)
    : list Entry :=
  build_srt_from_subwords subwords segment_offset
    default_max_line_sec default_max_chars default_pad_end_sec.

(** ** The driver *)

(** What [transcribe] returns: the text, and the subwords when the result
    object has that attribute. *)
Record TranscribeResult := {
  text : pystr;
  subwords : option (list Subword)
}.

(** [i * float(args.segment_sec)] *)
Definition segment_offset_of (segment_sec : Z) (i : Z) : Q :=
  (inject_Z i * inject_Z segment_sec)%Q.

(** One iteration of the loop over [enumerate(segs)].  [transcribe] stands
    for decoding the file and running the recogniser on it. *)
Definition main_step (segment_sec : Z) (transcribe : Path -> TranscribeResult)
    (acc : list pystr * list Entry) (it : Z * Path)
    : list pystr * list Entry :=
  let '(all_text_parts, srt_entries) := acc in
  let '(i, wav_path) := it in
  let offset := segment_offset_of segment_sec i in
  let ret := transcribe wav_path in
  let seg_text := strip (text ret) in
  let all_text_parts :=
    if truthy seg_text then all_text_parts ++ [seg_text] else all_text_parts in
  let srt_entries :=
    match subwords ret with
    | Some sws =>
        if truthy sws then srt_entries ++ build_srt_default sws offset
        else srt_entries
    | None => srt_entries
    end in
  (all_text_parts, srt_entries).

Definition main_loop (segment_sec : Z) (transcribe : Path -> TranscribeResult)
    (segs : list Path) : list pystr * list Entry :=
  fold_left (main_step segment_sec transcribe) (enumerate 0 segs) ([], []).

Definition newline : pystr := [10].

(** The text written to the transcript file. *)
Definition out_txt (all_text_parts : list pystr) : pystr :=
  strip (join newline all_text_parts) ++ newline.

(** One iteration of the loop that fills [lines]. *)
Definition srt_step (lines : list pystr) (it : Z * Entry) : list pystr :=
  let '(idx, (st, ed, txt)) := it in
  if negb (truthy txt) then lines
  else lines ++ [str_int idx;
                 srt_time st ++ lit " --> " ++ srt_time ed;
                 txt;
                 []].

Definition srt_lines (srt_entries : list Entry) : list pystr :=
  fold_left srt_step (enumerate 1 srt_entries) [].

(** The text written to the subtitle file. *)
Definition out_srt (srt_entries : list Entry) : pystr :=
  strip (join newline (srt_lines srt_entries)) ++ newline.

(** The two files [main] writes once ffmpeg has filled the segment
    directory: the transcript and the subtitles, or [None] when no segment
    was written. *)
Definition main (segment_sec : Z) (transcribe : Path -> TranscribeResult)
    (listing : list Path) : option (pystr * pystr) :=
  match segment_audio_from_video listing with
  | None => None
  | Some segs =>
      let '(all_text_parts, srt_entries) :=
        main_loop segment_sec transcribe segs in
      Some (out_txt all_text_parts, out_srt srt_entries)
  end.

(** ** Notions the statements use *)

Definition start_sec (e : Entry) : Q := fst (fst e).
Definition end_sec (e : Entry) : Q := snd (fst e).
Definition entry_text (e : Entry) : pystr := snd e.

Definition subword (t : Q) (s : string) : Subword :=
  {| seconds := t; token := lit s |}.

(** The entry a flush emits for the buffer [buf] of consecutive subwords:
    it starts at the first one, ends [pad_end_sec] after the last one and
    carries the trimmed concatenation of the tokens. *)
Definition entry_of_buffer (segment_offset pad_end_sec : Q)
    (buf : list Subword) : Entry :=
  match buf with
  | [] => (0%Q, 0%Q, [])
  | first :: _ =>
      ((seconds first + segment_offset)%Q,
       (seconds (last buf first) + segment_offset + pad_end_sec)%Q,
       tokens_to_text (map token buf))
  end.

(** After the subwords [done] the loop of the assembler has flushed the
    buffers [bufs] and holds the open buffer [cur]. *)
Definition asm_inv (off pad : Q) (done : list Subword) (st : AsmState)
    : Prop :=
  exists (bufs : list (list Subword)) (cur : list Subword),
    done = List.concat bufs ++ cur /\
    Forall (fun b => b <> []) bufs /\
    entries st = map (entry_of_buffer off pad) bufs /\
    cur_tokens st = map token cur /\
    match cur with
    | [] => cur_start st = None /\ cur_last st = None
    | first :: _ =>
        cur_start st = Some (seconds first + off)%Q /\
        cur_last st = Some (seconds (last cur first) + off)%Q
    end.

(** The segments in processing order, each with the offset the loop of
    [main] computes for it. *)
Definition catalog (segment_sec : Z) (segs : list Path) : list (Path * Q) :=
  map (fun it => (snd it, segment_offset_of segment_sec (fst it)))
      (enumerate 0 segs).

(** The entries the loop of [main] adds for segment number [i]. *)
Definition segment_entries (segment_sec : Z) (i : Z) (ret : TranscribeResult)
    : list Entry :=
  match subwords ret with
  | Some sws => build_srt_default sws (segment_offset_of segment_sec i)
  | None => []
  end.

(** The order [sorted] puts the segment files in. *)
Definition key_le (p q : Path) : Prop :=
  let kp := natural_sort_key p in
  let kq := natural_sort_key q in
  fst kp < fst kq \/ (fst kp = fst kq /\ str_le (snd kp) (snd kq)).

(** The transcript as the specification words it: trim each text, skip the
    empty ones, join with one newline, trim, append one newline. *)
Definition transcript_spec (texts : list pystr) : pystr :=
  strip (join newline (filter truthy (map strip texts))) ++ newline.

(** Rounding to the nearest integer with a tie going away from zero, the
    rule the specification names. *)
Definition round_half_away_from_zero (x : Q) : Z :=
  match (x ?= 0)%Q with
  | Lt => - Qfloor (- x + (1 # 2))
  | _ => Qfloor (x + (1 # 2))
  end.

(** A timestamp rendered from a millisecond count, as [srt_time] does after
    rounding. *)
Definition render_ms (ms : Z) : pystr :=
  fmt_d 2 (ms / 3600000) ++ lit ":" ++ fmt_d 2 (ms mod 3600000 / 60000)
    ++ lit ":" ++ fmt_d 2 (ms mod 3600000 mod 60000 / 1000) ++ lit ","
    ++ fmt_d 3 (ms mod 3600000 mod 60000 mod 1000).

(** The four lines of the block written for the entry at index [idx]. *)
Definition srt_block (it : Z * Entry) : list pystr :=
  [str_int (fst it);
   srt_time (start_sec (snd it)) ++ lit " --> " ++ srt_time (end_sec (snd it));
   entry_text (snd it);
   []].

(** The block numbers of a subtitle file, read back from its lines: every
    fourth line, starting with the first. *)
Fixpoint block_numbers (lines : list pystr) : list pystr :=
  match lines with
  | n :: _ :: _ :: _ :: rest => n :: block_numbers rest
  | _ => []
  end.

(** Shorter timestamps first, timestamps of one width in dictionary order:
    the order in which the strings follow the times they denote. *)
Definition timestamp_le (a b : pystr) : Prop :=
  (List.length a < List.length b)%nat
  \/ (List.length a = List.length b /\ str_le a b).

(** The token stream of the specification's worked example. *)
Definition example_tokens : list Subword :=
  [subword 0 "A"; subword 1 "B"; subword 2 "C"; subword 5 "D"].


(** What the ordering claim assumes of a segment: the relative times of its
    subwords do not decrease and lie within the segment. *)
Definition well_timed (segment_sec : Z) (ret : TranscribeResult) : Prop :=
  forall sws, subwords ret = Some sws ->
    Sorted Qle (map seconds sws)
    /\ Forall (fun s => (0 <= seconds s <= inject_Z segment_sec)%Q) sws.

(** A string of decimal digits. *)
Definition all_digits (s : pystr) : Prop :=
  Forall (fun c => isdigit c = true) s.

(** The directory of the specification's catalog example. *)
Definition example_listing : list Path :=
  [lit "seg_000003.wav"; lit "seg_000001.wav"; lit "seg_000002.wav"].

(** A recogniser that hears one space in the first segment ffmpeg writes
    and the token A, one second in, in every other segment. *)
Definition blank_then_speech (p : Path) : TranscribeResult :=
  match str_cmp p (lit "seg_000000.wav") with
  | Eq => {| text := lit " "; subwords := Some [subword 0 " "] |}
  | _ => {| text := lit "A"; subwords := Some [subword 1 "A"] |}
  end.

(** A recogniser that hears A at 0 s and B at 1 s in every segment. *)
Definition two_tokens (p : Path) : TranscribeResult :=
  {| text := lit "AB"; subwords := Some [subword 0 "A"; subword 1 "B"] |}.

(** The rational a binary64 number stands for ([None] for an infinity or a
    NaN). *)
Definition Q_of_float (f : float) : option Q :=
  match Prim2SF f with
  | S754_zero _ => Some 0%Q
  | S754_finite sign m e =>
      Some ((if sign then -1 else 1) * inject_Z (Z.pos m) * 2 ^ e)%Q
  | _ => None
  end.

(** The binary64 operation [fop] on [a] and [b] gives the exact result of
    the operation [qop] on the rationals. *)
Definition exact_in_binary64 (fop : float -> float -> float)
    (qop : Q -> Q -> Q) (ab : float * float) : bool :=
  match Q_of_float (fop (fst ab) (snd ab)),
        Q_of_float (fst ab), Q_of_float (snd ab) with
  | Some r, Some x, Some y => Qeq_bool r (qop x y)
  | _, _, _ => false
  end.

(** ** The arithmetic of the script in binary64

    Python's [float] is IEEE binary64, which the kernel's primitive floats
    are too: [+], [-], [*] round to nearest, ties to even, and [<], [>=]
    are false on a NaN.  The definitions below are [srt_time] and
    [build_srt_from_subwords] again with that arithmetic, for the
    statements that depend on how a sum, a difference or a product is
    rounded. *)

(** [int(round(seconds * 1000))] after the clamp, for a binary64 [seconds];
    [None] when [round] raises (the product is an infinity or a NaN).  The
    clamp sets [seconds] to the integer 0. *)
Definition srt_ms_b64 (seconds : float) : option Z :=
  if (seconds <? 0)%float then Some (py_round (inject_Z (0 * 1000)))
  else option_map py_round (Q_of_float (seconds * 1000)%float).

Definition srt_time_b64 (seconds : float) : option pystr :=
  option_map render_ms (srt_ms_b64 seconds).

Record Subword64 := { seconds64 : float; token64 : pystr }.

Definition Entry64 := (float * float * pystr)%type.

Record AsmState64 := {
  entries64 : list Entry64;
  cur_tokens64 : list pystr;
  cur_start64 : option float;
  cur_last64 : option float
}.

Definition asm_init64 : AsmState64 :=
  {| entries64 := []; cur_tokens64 := []; cur_start64 := None;
     cur_last64 := None |}.

(** One iteration of the loop of [build_srt_from_subwords]. *)
Definition asm_step64 (segment_offset max_line_sec : float) (max_chars : Z)
    (pad_end_sec : float) (st : AsmState64) (sw : Subword64) : AsmState64 :=
  let t := (seconds64 sw + segment_offset)%float in
  let tok := token64 sw in
  match cur_start64 st with
  | None =>
      {| entries64 := entries64 st; cur_tokens64 := [tok];
         cur_start64 := Some t; cur_last64 := Some t |}
  | Some start =>
      let toks := cur_tokens64 st ++ [tok] in
      let text := tokens_to_text toks in
      if (max_line_sec <=? t - start)%float || (max_chars <=? len text)
      then {| entries64 := entries64 st
                             ++ [(start, (t + pad_end_sec)%float, text)];
              cur_tokens64 := []; cur_start64 := None; cur_last64 := None |}
      else {| entries64 := entries64 st; cur_tokens64 := toks;
              cur_start64 := Some start; cur_last64 := Some t |}
  end.

Definition build_srt_from_subwords64 (subwords : list Subword64)
    (segment_offset max_line_sec : float) (max_chars : Z)
    (pad_end_sec : float) : list Entry64 :=
  if truthy subwords then
    let st := fold_left
                (asm_step64 segment_offset max_line_sec max_chars pad_end_sec)
                subwords asm_init64 in
    match cur_tokens64 st, cur_start64 st, cur_last64 st with
    | _ :: _, Some start, Some last =>
        entries64 st
          ++ [(start, (last + pad_end_sec)%float,
               tokens_to_text (cur_tokens64 st))]
    | _, _, _ => entries64 st
    end
  else [].

Definition subword64 (t : float) (s : string) : Subword64 :=
  {| seconds64 := t; token64 := lit s |}.

(** The entry a flush emits for the buffer [buf]. *)
Definition entry_of_buffer64 (segment_offset pad_end_sec : float)
    (buf : list Subword64) : Entry64 :=
  match buf with
  | [] => (0%float, 0%float, [])
  | first :: _ =>
      ((seconds64 first + segment_offset)%float,
       (seconds64 (last buf first) + segment_offset + pad_end_sec)%float,
       tokens_to_text (map token64 buf))
  end.

(** The test that ends a caption, on the buffer [buf] once a subword has
    been appended to it, as the loop computes it. *)
Definition flush_due64 (off mx : float) (mc : Z) (buf : list Subword64)
    : bool :=
  match buf with
  | [] => false
  | first :: _ =>
      (mx <=? (seconds64 (last buf first) + off)
              - (seconds64 first + off))%float
      || (mc <=? len (tokens_to_text (map token64 buf)))
  end.

Definition no_flush_upto64 (off mx : float) (mc : Z) (buf : list Subword64)
    (n : nat) : Prop :=
  forall k : nat,
    (2 <= k <= n)%nat -> flush_due64 off mx mc (firstn k buf) = false.

(** The loop after the subwords [done], with what the thresholds say of
    the buffers. *)
Definition asm_inv64 (off mx : float) (mc : Z) (pad : float)
    (done : list Subword64) (st : AsmState64) : Prop :=
  exists (bufs : list (list Subword64)) (cur : list Subword64),
    done = List.concat bufs ++ cur /\
    Forall (fun b => (2 <= List.length b)%nat
                     /\ flush_due64 off mx mc b = true
                     /\ no_flush_upto64 off mx mc b (List.length b - 1)) bufs /\
    entries64 st = map (entry_of_buffer64 off pad) bufs /\
    cur_tokens64 st = map token64 cur /\
    no_flush_upto64 off mx mc cur (List.length cur) /\
    match cur with
    | [] => cur_start64 st = None /\ cur_last64 st = None
    | first :: _ =>
        cur_start64 st = Some (seconds64 first + off)%float /\
        cur_last64 st = Some (seconds64 (last cur first) + off)%float
    end.

(** ** The rest of the scripts *)

(** What [subprocess.run] hands back. *)
Record Completed := { returncode : Z; stdout : pystr; stderr : pystr }.

(** [run]: [None] when the command succeeded, otherwise the message of the
    [RuntimeError] it raises. *)
Definition run (cmd : list pystr) (p : Completed) : option pystr :=
  if negb (returncode p =? 0) then
    Some (lit "Command failed:" ++ newline ++ join (lit " ") cmd
          ++ newline ++ newline ++ lit "--- stdout ---" ++ newline ++ stdout p
          ++ newline ++ newline ++ lit "--- stderr ---" ++ newline ++ stderr p)
  else None.

(** The three ways [segment_audio_from_video] fails. *)
Inductive SegError :=
| FfmpegNotFound
| CommandFailed (message : pystr)
| NoSegments.

(** The command line of [segment_audio_from_video]; [video_path] and
    [out_pattern_path] are the paths already turned into strings. *)
Definition ffmpeg_cmd (video_path out_pattern_path : pystr) (segment_sec : Z)
    : list pystr :=
  [lit "ffmpeg"; lit "-y"; lit "-i"; video_path; lit "-vn"; lit "-ac";
   lit "1"; lit "-ar"; lit "16000"; lit "-f"; lit "segment";
   lit "-segment_time"; str_int segment_sec; lit "-reset_timestamps";
   lit "1"; out_pattern_path].

(** [segment_audio_from_video] with its environment: whether [shutil.which]
    finds ffmpeg, how the ffmpeg process ends, and what the output directory
    holds afterwards. *)
Definition segment_audio_from_video_env (which_ffmpeg : bool)
    (video_path out_pattern_path : pystr) (segment_sec : Z)
    (ffmpeg : Completed) (listing : list Path) : SegError + list Path :=
  if negb which_ffmpeg then inl FfmpegNotFound
  else
    match run (ffmpeg_cmd video_path out_pattern_path segment_sec) ffmpeg with
    | Some message => inl (CommandFailed message)
    | None =>
        match segment_audio_from_video listing with
        | Some segs => inr segs
        | None => inl NoSegments
        end
    end.

(** The file name the output pattern seg_%06d.wav of
    [segment_audio_from_video] stands for at segment number [n]. *)
Definition out_pattern (n : Z) : Path :=
  lit "seg_" ++ fmt_d 6 n ++ lit ".wav".

(** The test of [build_srt_from_subwords] that ends a caption, on the buffer
    [buf] once a subword has been appended to it. *)
Definition flush_due (off mx : Q) (mc : Z) (buf : list Subword) : bool :=
  match buf with
  | [] => false
  | first :: _ =>
      Qle_bool mx ((seconds (last buf first) + off) - (seconds first + off))
      || (mc <=? len (tokens_to_text (map token buf)))
  end.

(** No threshold was reached while the buffer [buf] was being filled, up to
    and including its [n]-th subword. *)
Definition no_flush_upto (off mx : Q) (mc : Z) (buf : list Subword) (n : nat)
    : Prop :=
  forall k : nat, (2 <= k <= n)%nat -> flush_due off mx mc (firstn k buf) = false.

(** The loop of the assembler after the subwords [done], with what the
    thresholds say of the buffers. *)
Definition asm_inv_greedy (off mx : Q) (mc : Z) (pad : Q)
    (done : list Subword) (st : AsmState) : Prop :=
  exists (bufs : list (list Subword)) (cur : list Subword),
    done = List.concat bufs ++ cur /\
    Forall (fun b => (2 <= List.length b)%nat
                     /\ flush_due off mx mc b = true
                     /\ no_flush_upto off mx mc b (List.length b - 1)) bufs /\
    entries st = map (entry_of_buffer off pad) bufs /\
    cur_tokens st = map token cur /\
    no_flush_upto off mx mc cur (List.length cur) /\
    match cur with
    | [] => cur_start st = None /\ cur_last st = None
    | first :: _ =>
        cur_start st = Some (seconds first + off)%Q /\
        cur_last st = Some (seconds (last cur first) + off)%Q
    end.

(** The text of one block of the subtitle file, without the blank line that
    follows it. *)
Definition srt_block_text (it : Z * Entry) : pystr :=
  str_int (fst it) ++ newline
    ++ srt_time (start_sec (snd it)) ++ lit " --> "
    ++ srt_time (end_sec (snd it)) ++ newline
    ++ entry_text (snd it).

(** The entries that get a block, each with its index. *)
Definition retained (srt_entries : list Entry) : list (Z * Entry) :=
  filter (fun it => truthy (entry_text (snd it))) (enumerate 1 srt_entries).

(** pdf2pptx.py: [os.path.join] of two components (POSIX). *)
Definition os_path_join (a b : pystr) : pystr :=
  if startswith (lit "/") b then b
  else if negb (truthy a) || endswith (lit "/") a then a ++ b
  else a ++ lit "/" ++ b.

(** pdf2pptx.py: what [os.path.join] puts in front of a relative name. *)
Definition page_prefix (out_dir : pystr) : pystr :=
  if negb (truthy out_dir) || endswith (lit "/") out_dir then out_dir
  else out_dir ++ lit "/".

(** pdf2pptx.py: the file name of page [i] (0-based) in [pdf_to_images]. *)
Definition page_name (i : Z) (fmt : pystr) : pystr :=
  lit "page_" ++ fmt_d 4 (i + 1) ++ lit "." ++ fmt.

(** pdf2pptx.py: the paths [pdf_to_images] saves the pages of a document of
    [n_pages] pages to, and returns. *)
Definition pdf_to_images (out_dir : pystr) (n_pages : nat) (fmt : pystr)
    : list pystr :=
  map (fun i => os_path_join out_dir (page_name (Z.of_nat i) fmt))
      (seq 0 n_pages).

(** * Properties *)

(** ** Strings *)

Section Strings.

Lemma lstrip_app_nonspace (u v : pystr) (c : Z) :
  isspace c = false -> lstrip (u ++ c :: v) = lstrip u ++ c :: v.
Proof.
  intros Hc. induction u as [|x u IH]; simpl.
  - now rewrite Hc.
  - destruct (isspace x); [exact IH | reflexivity].
Qed.

Lemma lstrip_idem (s : pystr) : lstrip (lstrip s) = lstrip s.
Proof.
  induction s as [|x s IH]; simpl; [reflexivity|].
  destruct (isspace x) eqn:E; [exact IH|]. simpl. now rewrite E.
Qed.

Lemma lstrip_head (s r : pystr) (c : Z) :
  lstrip s = c :: r -> isspace c = false.
Proof.
  induction s as [|x s IH]; simpl; [discriminate|].
  destruct (isspace x) eqn:E; [exact IH|].
  intros H. injection H as -> _. exact E.
Qed.

Lemma lstrip_nil_iff (s : pystr) :
  lstrip s = [] <-> forallb isspace s = true.
Proof.
  induction s as [|x s IH]; simpl; [tauto|].
  destruct (isspace x); simpl; [exact IH|]. split; discriminate.
Qed.

Lemma rstrip_cons_nonspace (c : Z) (s : pystr) :
  isspace c = false -> rstrip (c :: s) = c :: rstrip s.
Proof.
  intros Hc. unfold rstrip. simpl rev.
  rewrite (lstrip_app_nonspace (rev s) [] c Hc).
  now rewrite rev_app_distr.
Qed.

Lemma rstrip_idem (s : pystr) : rstrip (rstrip s) = rstrip s.
Proof.
  unfold rstrip. now rewrite rev_involutive, lstrip_idem.
Qed.

Lemma rstrip_strip (s : pystr) : rstrip (strip s) = strip s.
Proof. unfold strip. apply rstrip_idem. Qed.

Lemma lstrip_strip (s : pystr) : lstrip (strip s) = strip s.
Proof.
  unfold strip. destruct (lstrip s) as [|c r] eqn:E; [reflexivity|].
  pose proof (lstrip_head _ _ _ E) as Hc.
  rewrite (rstrip_cons_nonspace c r Hc). simpl. now rewrite Hc.
Qed.


Lemma strip_nil_iff (s : pystr) :
  strip s = [] <-> forallb isspace s = true.
Proof.
  rewrite <- lstrip_nil_iff. unfold strip.
  destruct (lstrip s) as [|c r] eqn:E.
  - split; reflexivity.
  - rewrite (rstrip_cons_nonspace c r (lstrip_head _ _ _ E)).
    split; discriminate.
Qed.

Lemma join_nil_concat (l : list pystr) : join [] l = List.concat l.
Proof.
  induction l as [|x l IH]; [reflexivity|].
  destruct l as [|y l]; simpl in *.
  - now rewrite app_nil_r.
  - now rewrite IH.
Qed.

End Strings.

(** ** The caption assembler: what a run of the loop leaves behind *)

Section Assembler.

Variables (off mx : Q) (mc : Z) (pad : Q).

Lemma asm_inv_init : asm_inv off pad [] asm_init.
Proof. exists [], []. simpl. repeat split; constructor. Qed.

Lemma entry_of_buffer_snoc (first : Subword) (rest : list Subword)
    (s : Subword) :
  entry_of_buffer off pad ((first :: rest) ++ [s])
  = ((seconds first + off)%Q, (seconds s + off + pad)%Q,
     tokens_to_text (map token ((first :: rest) ++ [s]))).
Proof.
  unfold entry_of_buffer.
  change ((first :: rest) ++ [s]) with (first :: (rest ++ [s])) at 1.
  cbv iota. now rewrite last_last.
Qed.

Lemma asm_inv_step (done : list Subword) (st : AsmState) (s : Subword) :
  asm_inv off pad done st ->
  asm_inv off pad (done ++ [s]) (asm_step off mx mc pad st s).
Proof.
  intros (bufs & cur & Hd & Hne & He & Ht & Hc).
  unfold asm_step. destruct cur as [|first rest].
  - destruct Hc as [Hs _]. rewrite Hs.
    exists bufs, [s]. simpl. rewrite Hd, app_nil_r. repeat split; auto.
  - destruct Hc as [Hs _]. rewrite Hs, Ht.
    replace (map token (first :: rest) ++ [token s])
      with (map token ((first :: rest) ++ [s]))
      by (rewrite map_app; reflexivity).
    destruct (Qle_bool mx (seconds s + off - (seconds first + off))
              || (mc <=? len (tokens_to_text
                                (map token ((first :: rest) ++ [s]))))).
    + exists (bufs ++ [(first :: rest) ++ [s]]), [].
      cbn [entries cur_tokens cur_start cur_last].
      split; [|split; [|split; [|repeat split]]].
      * rewrite Hd, concat_app. cbn [List.concat].
        now rewrite !app_nil_r, <- app_assoc.
      * apply Forall_app. split; [exact Hne|]. constructor; [|constructor].
        discriminate.
      * rewrite He, (map_app (entry_of_buffer off pad)). cbn [map].
        now rewrite entry_of_buffer_snoc.
    + exists bufs, ((first :: rest) ++ [s]).
      cbn [entries cur_tokens cur_start cur_last].
      split; [|split; [|split; [|split]]]; auto.
      * now rewrite Hd, <- app_assoc.
      * change ((first :: rest) ++ [s]) with (first :: (rest ++ [s])) at 1.
        cbv iota. split; [reflexivity|].
        change (first :: (rest ++ [s])) with ((first :: rest) ++ [s]).
        now rewrite last_last.
Qed.

Lemma asm_inv_fold (sws done : list Subword) (st : AsmState) :
  asm_inv off pad done st ->
  asm_inv off pad (done ++ sws) (fold_left (asm_step off mx mc pad) sws st).
Proof.
  revert done st. induction sws as [|s sws IH]; intros done st H; simpl.
  - now rewrite app_nil_r.
  - replace (done ++ s :: sws) with ((done ++ [s]) ++ sws)
      by (rewrite <- app_assoc; reflexivity).
    apply IH, asm_inv_step, H.
Qed.

(** The result is the list of the entries of consecutive, non-empty buffers
    that together make up the input. *)
Lemma build_srt_buffers (sws : list Subword) :
  exists bufs : list (list Subword),
    List.concat bufs = sws /\
    Forall (fun b => b <> []) bufs /\
    build_srt_from_subwords sws off mx mc pad
      = map (entry_of_buffer off pad) bufs.
Proof.
  unfold build_srt_from_subwords. destruct sws as [|s0 sws'].
  - exists []. simpl. repeat split. constructor.
  - set (sws := s0 :: sws'). simpl truthy. cbv iota.
    destruct (asm_inv_fold sws [] asm_init asm_inv_init)
      as (bufs & cur & Hd & Hne & He & Ht & Hc).
    simpl app in Hd. rewrite Ht, He.
    destruct cur as [|first rest].
    + exists bufs. simpl. rewrite app_nil_r in Hd. auto.
    + destruct Hc as [Hs Hl]. rewrite Hs, Hl. simpl map at 1.
      exists (bufs ++ [first :: rest]).
      rewrite concat_app, map_app. simpl. rewrite app_nil_r.
      repeat split; auto.
      apply Forall_app. split; [exact Hne|]. constructor; [|constructor].
      discriminate.
Qed.

End Assembler.

(** ** Order of the entries of one segment *)

Section Ordering.

Lemma ssorted_app_inv {A : Type} (R : A -> A -> Prop) (l1 l2 : list A) :
  StronglySorted R (l1 ++ l2) ->
  StronglySorted R l1 /\ StronglySorted R l2 /\
  (forall a b, In a l1 -> In b l2 -> R a b).
Proof.
  induction l1 as [|x l1 IH]; simpl; intros H.
  - repeat split; [constructor | exact H | intros ? ? []].
  - apply StronglySorted_inv in H. destruct H as [H Hx].
    destruct (IH H) as (H1 & H2 & H12).
    apply Forall_app in Hx. destruct Hx as [Hx1 Hx2].
    repeat split; [now constructor | exact H2 |].
    intros a b [<-|Ha] Hb.
    + rewrite Forall_forall in Hx2. now apply Hx2.
    + now apply H12.
Qed.


Lemma Qle_sorted_strongly (l : list Q) : Sorted Qle l -> StronglySorted Qle l.
Proof.
  apply Sorted_StronglySorted. intros x y z. apply Qle_trans.
Qed.

Lemma last_in_or {A : Type} (l : list A) (d : A) :
  last l d = d \/ In (last l d) l.
Proof.
  induction l as [|x l IH]; [now left|].
  destruct l as [|y l]; [right; now left|].
  change (last (x :: y :: l) d) with (last (y :: l) d).
  destruct IH as [IH|IH]; [now left | right; now right].
Qed.

Lemma buffer_first_le_last (first : Subword) (rest : list Subword) :
  StronglySorted Qle (map seconds (first :: rest)) ->
  (seconds first <= seconds (last (first :: rest) first))%Q.
Proof.
  intros H. simpl in H. apply StronglySorted_inv in H. destruct H as [_ H].
  destruct (last_in_or (first :: rest) first) as [E|[E|Hin]].
  - rewrite E. apply Qle_refl.
  - rewrite <- E. apply Qle_refl.
  - rewrite Forall_forall in H. apply H. now apply in_map.
Qed.

Variables (off pad : Q).

Lemma entry_of_buffer_start (b : list Subword) :
  b <> [] ->
  exists s, In s b /\ start_sec (entry_of_buffer off pad b) = (seconds s + off)%Q
            /\ hd_error b = Some s.
Proof.
  destruct b as [|first rest]; [congruence|]. intros _.
  exists first. simpl. auto.
Qed.

Lemma buffers_starts_sorted (bufs : list (list Subword)) :
  Forall (fun b => b <> []) bufs ->
  StronglySorted Qle (map seconds (List.concat bufs)) ->
  StronglySorted Qle (map start_sec (map (entry_of_buffer off pad) bufs)).
Proof.
  induction bufs as [|b bufs IH]; intros Hne Hs; simpl; [constructor|].
  inversion Hne as [|? ? Hb Hne']; subst.
  simpl in Hs. rewrite map_app in Hs.
  destruct (ssorted_app_inv _ _ _ Hs) as (_ & Hs2 & Hcross).
  constructor; [now apply IH|].
  apply Forall_forall. intros x Hx.
  rewrite map_map in Hx. apply in_map_iff in Hx.
  destruct Hx as (b' & <- & Hb').
  rewrite Forall_forall in Hne'.
  destruct (entry_of_buffer_start b Hb) as (s & Hin & -> & _).
  destruct (entry_of_buffer_start b' (Hne' b' Hb')) as (s' & Hin' & -> & _).
  assert (seconds s <= seconds s')%Q.
  { apply Hcross; [now apply in_map|]. apply in_map.
    apply in_concat. now exists b'. }
  lra.
Qed.

End Ordering.

(** Whatever the thresholds, the entries of one segment start at subwords of
    the segment, in the order of the input. *)
Lemma build_srt_starts (sws : list Subword) (off mx : Q) (mc : Z) (pad : Q)
    (e : Entry) :
  In e (build_srt_from_subwords sws off mx mc pad) ->
  exists s, In s sws /\ start_sec e = (seconds s + off)%Q.
Proof.
  destruct (build_srt_buffers off mx mc pad sws) as (bufs & Hc & Hne & ->).
  intros He. apply in_map_iff in He. destruct He as (b & <- & Hb).
  rewrite Forall_forall in Hne.
  destruct (entry_of_buffer_start off pad b (Hne b Hb)) as (s & Hin & E & _).
  exists s. split; [|exact E]. rewrite <- Hc. apply in_concat. now exists b.
Qed.

Lemma build_srt_starts_sorted (sws : list Subword) (off mx : Q) (mc : Z)
    (pad : Q) :
  Sorted Qle (map seconds sws) ->
  StronglySorted Qle
    (map start_sec (build_srt_from_subwords sws off mx mc pad)).
Proof.
  intros Hs.
  destruct (build_srt_buffers off mx mc pad sws) as (bufs & Hc & Hne & ->).
  apply buffers_starts_sorted; [exact Hne|].
  rewrite Hc. now apply Qle_sorted_strongly.
Qed.

(** ** The caption assembler: the claims *)

(** C1, as the code has it.  On the tokens (0.0,A), (1.0,B), (2.0,C),
    (5.0,D) with the default thresholds and offset 0 the assembler returns
    the single entry (0.0, 5.25, ABCD): the third token leaves the buffer
    A, B, C open; the fourth is appended before the thresholds are tested,
    so the flush at elapsed time 5.0 >= 4.0 takes it along, and nothing is
    left for the end of the loop. *)
Theorem build_srt_example :
  build_srt_from_subwords example_tokens 0 4 26 (1 # 4)
    = [(0%Q, 21 # 4, lit "ABCD")]
  /\ entries (fold_left (asm_step 0 4 26 (1 # 4))
                (firstn 3 example_tokens) asm_init) = []
  /\ cur_tokens (fold_left (asm_step 0 4 26 (1 # 4))
                   (firstn 3 example_tokens) asm_init)
     = [lit "A"; lit "B"; lit "C"]
  /\ entries (fold_left (asm_step 0 4 26 (1 # 4)) example_tokens asm_init)
     = [(0%Q, 21 # 4, lit "ABCD")]
  /\ cur_tokens (fold_left (asm_step 0 4 26 (1 # 4)) example_tokens asm_init)
     = [].
Proof. repeat split; vm_compute; reflexivity. Qed.

(** C1, as stated, fails: the result is not the two entries
    (0.0, 5.25, ABC) and (5.0, 5.25, D). *)
Lemma build_srt_example_not_two_entries :
  build_srt_from_subwords example_tokens 0 4 26 (1 # 4)
    <> [(0%Q, 21 # 4, lit "ABC"); (5%Q, 21 # 4, lit "D")].
Proof. vm_compute. discriminate. Qed.

(** C9.  No token is lost: for a non-empty input the result is the list of
    the entries of non-empty buffers of consecutive subwords; the buffers,
    put end to end, are the input, so the concatenation of their token texts
    is the concatenation of all token texts; and there is at least one
    entry, one per buffer. *)
Theorem build_srt_partitions_tokens (sws : list Subword) (off mx : Q)
    (mc : Z) (pad : Q) :
  sws <> [] ->
  exists bufs : list (list Subword),
    build_srt_from_subwords sws off mx mc pad
      = map (entry_of_buffer off pad) bufs
    /\ List.concat bufs = sws
    /\ Forall (fun b => b <> []) bufs
    /\ bufs <> []
    /\ List.length (build_srt_from_subwords sws off mx mc pad)
       = List.length bufs
    /\ join [] (map (fun b => join [] (map token b)) bufs)
       = join [] (map token sws).
Proof.
  intros Hne.
  destruct (build_srt_buffers off mx mc pad sws) as (bufs & Hc & Hb & E).
  exists bufs. rewrite E. repeat split; auto.
  - intros ->. simpl in Hc. congruence.
  - apply length_map.
  - rewrite !join_nil_concat, <- Hc. clear.
    induction bufs as [|b bufs IH]; [reflexivity|].
    simpl. now rewrite map_app, concat_app, IH, join_nil_concat.
Qed.

Lemma build_srt_partitions_tokens_witness :
  exists bufs : list (list Subword),
    build_srt_from_subwords example_tokens 0 4 26 (1 # 4)
      = map (entry_of_buffer 0 (1 # 4)) bufs
    /\ List.concat bufs = example_tokens
    /\ Forall (fun b => b <> []) bufs
    /\ bufs <> []
    /\ List.length (build_srt_from_subwords example_tokens 0 4 26 (1 # 4))
       = List.length bufs
    /\ join [] (map (fun b => join [] (map token b)) bufs)
       = join [] (map token example_tokens).
Proof.
  apply (build_srt_partitions_tokens example_tokens 0 4 26 (1 # 4)).
  discriminate.
Defined.

Lemma buffer_of_sorted (bufs : list (list Subword)) (b : list Subword) :
  In b bufs ->
  StronglySorted Qle (map seconds (List.concat bufs)) ->
  StronglySorted Qle (map seconds b).
Proof.
  intros Hin Hs. apply in_split in Hin. destruct Hin as (pre & post & ->).
  rewrite concat_app, map_app in Hs.
  destruct (ssorted_app_inv _ _ _ Hs) as (_ & Hs' & _).
  simpl in Hs'. rewrite map_app in Hs'.
  now destruct (ssorted_app_inv _ _ _ Hs') as (Hb & _ & _).
Qed.




(** ** The driver: what the loop of [main] accumulates *)

Section Driver.

Variables (segment_sec : Z) (transcribe : Path -> TranscribeResult).

Lemma main_fold (segs : list Path) (k : Z) (parts : list pystr)
    (ents : list Entry) :
  fold_left (main_step segment_sec transcribe) (enumerate k segs) (parts, ents)
  = (parts ++ filter truthy (map (fun p => strip (text (transcribe p))) segs),
     ents ++ List.concat
               (map (fun it => segment_entries segment_sec (fst it)
                                 (transcribe (snd it)))
                    (enumerate k segs))).
Proof.
  revert k parts ents.
  induction segs as [|p segs IH]; intros k parts ents; simpl.
  - now rewrite !app_nil_r.
  - rewrite IH. unfold segment_entries at 2.
    destruct (truthy (strip (text (transcribe p)))); f_equal;
      try (rewrite <- app_assoc; reflexivity);
      destruct (subwords (transcribe p)) as [[|s sws]|]; simpl;
      now rewrite <- ?app_assoc.
Qed.

Lemma main_loop_texts (segs : list Path) :
  fst (main_loop segment_sec transcribe segs)
  = filter truthy (map (fun p => strip (text (transcribe p))) segs).
Proof. unfold main_loop. now rewrite main_fold. Qed.

Lemma main_loop_entries (segs : list Path) :
  snd (main_loop segment_sec transcribe segs)
  = List.concat (map (fun it => segment_entries segment_sec (fst it)
                                  (transcribe (snd it)))
                     (enumerate 0 segs)).
Proof. unfold main_loop. now rewrite main_fold. Qed.

End Driver.

(** C7.  The transcript file holds the segment texts, each trimmed, the
    empty ones skipped, joined by one newline in segment order, the whole
    trimmed, with one newline appended; what precedes that newline has no
    white space at either end, so the file ends with exactly one newline. *)
Theorem transcript_serialized (segment_sec : Z)
    (transcribe : Path -> TranscribeResult) (listing segs : list Path) :
  out_txt (fst (main_loop segment_sec transcribe segs))
    = transcript_spec (map (fun p => text (transcribe p)) segs)
  /\ option_map fst (main segment_sec transcribe listing)
     = option_map
         (fun segs => transcript_spec (map (fun p => text (transcribe p)) segs))
         (segment_audio_from_video listing)
  /\ exists body : pystr,
       out_txt (fst (main_loop segment_sec transcribe segs)) = body ++ newline
       /\ rstrip body = body /\ lstrip body = body.
Proof.
  assert (E : forall l, out_txt (fst (main_loop segment_sec transcribe l))
                        = transcript_spec (map (fun p => text (transcribe p)) l)).
  { intros l. rewrite main_loop_texts. unfold out_txt, transcript_spec.
    now rewrite map_map. }
  split; [apply E|]. split.
  - unfold main. destruct (segment_audio_from_video listing) as [l|];
      [|reflexivity].
    specialize (E l).
    destruct (main_loop segment_sec transcribe l) as [parts ents].
    simpl in *. now rewrite E.
  - exists (strip (join newline (fst (main_loop segment_sec transcribe segs)))).
    split; [reflexivity|]. split; [apply rstrip_strip | apply lstrip_strip].
Qed.

(** ** Order of the entries across segments *)

Section GlobalOrder.

Variables (segment_sec : Z) (transcribe : Path -> TranscribeResult).

Lemma ssorted_app {A : Type} (R : A -> A -> Prop) (l1 l2 : list A) :
  StronglySorted R l1 -> StronglySorted R l2 ->
  (forall a b, In a l1 -> In b l2 -> R a b) ->
  StronglySorted R (l1 ++ l2).
Proof.
  intros H1 H2 Hc. induction l1 as [|x l1 IH]; simpl; [exact H2|].
  apply StronglySorted_inv in H1. destruct H1 as [H1 Hx].
  constructor.
  - apply IH; [exact H1|]. intros a b Ha. apply Hc. now right.
  - apply Forall_app. split; [exact Hx|].
    apply Forall_forall. intros b Hb. apply Hc; [now left | exact Hb].
Qed.

Lemma segment_entries_sorted (i : Z) (ret : TranscribeResult) :
  well_timed segment_sec ret ->
  StronglySorted Qle (map start_sec (segment_entries segment_sec i ret)).
Proof.
  intros H. unfold segment_entries.
  destruct (subwords ret) as [sws|] eqn:E; [|constructor].
  apply build_srt_starts_sorted. now apply (H sws).
Qed.

Lemma segment_entries_bounds (i : Z) (ret : TranscribeResult) (e : Entry) :
  well_timed segment_sec ret ->
  In e (segment_entries segment_sec i ret) ->
  (0 <= inject_Z segment_sec)%Q
  /\ (inject_Z i * inject_Z segment_sec <= start_sec e)%Q
  /\ (start_sec e <= inject_Z (i + 1) * inject_Z segment_sec)%Q.
Proof.
  intros H He. unfold segment_entries in He.
  destruct (subwords ret) as [sws|] eqn:E; [|destruct He].
  destruct (H sws E) as [_ Hb].
  apply build_srt_starts in He. destruct He as (s & Hs & ->).
  rewrite Forall_forall in Hb. specialize (Hb s Hs).
  unfold segment_offset_of.
  assert (Heq : (inject_Z (i + 1) * inject_Z segment_sec
                 == inject_Z i * inject_Z segment_sec + inject_Z segment_sec)%Q)
    by (rewrite inject_Z_plus; ring).
  rewrite Heq. set (o := (inject_Z i * inject_Z segment_sec)%Q).
  repeat split; lra.
Qed.

Lemma offsets_monotone (i j : Z) :
  i <= j -> (0 <= inject_Z segment_sec)%Q ->
  (inject_Z i * inject_Z segment_sec <= inject_Z j * inject_Z segment_sec)%Q.
Proof.
  intros Hij Hd. apply Qmult_le_compat_r; [|exact Hd].
  now rewrite <- Zle_Qle.
Qed.

Lemma concat_entries_sorted (segs : list Path) (k : Z) :
  (forall p, In p segs -> well_timed segment_sec (transcribe p)) ->
  StronglySorted Qle
    (map start_sec
       (List.concat
          (map (fun it => segment_entries segment_sec (fst it)
                            (transcribe (snd it)))
               (enumerate k segs))))
  /\ Forall (fun e => (0 <= inject_Z segment_sec)%Q
                      /\ (inject_Z k * inject_Z segment_sec <= start_sec e)%Q)
       (List.concat
          (map (fun it => segment_entries segment_sec (fst it)
                            (transcribe (snd it)))
               (enumerate k segs))).
Proof.
  revert k. induction segs as [|p segs IH]; intros k H; simpl.
  - split; constructor.
  - assert (Hp : well_timed segment_sec (transcribe p)) by (apply H; now left).
    destruct (IH (k + 1) (fun q Hq => H q (or_intror Hq))) as [IHs IHb].
    rewrite Forall_forall in IHb.
    split.
    + rewrite map_app. apply ssorted_app;
        [now apply segment_entries_sorted | exact IHs |].
      intros a b Ha Hb. apply in_map_iff in Ha, Hb.
      destruct Ha as (ea & <- & Ha). destruct Hb as (eb & <- & Hb).
      destruct (segment_entries_bounds _ _ _ Hp Ha) as (_ & _ & Hup).
      destruct (IHb eb Hb) as [_ Hlo]. lra.
    + apply Forall_app. split; apply Forall_forall; intros e He.
      * destruct (segment_entries_bounds _ _ _ Hp He) as (Hd & Hlo & _).
        now split.
      * destruct (IHb e He) as [Hd Hlo]. split; [exact Hd|].
        apply Qle_trans with (2 := Hlo). apply offsets_monotone; [lia|exact Hd].
Qed.

End GlobalOrder.

(** C5.  When in every segment the relative times of the subwords do not
    decrease and lie between 0 and the segment duration, the entries that
    [main] collects are in non-decreasing order of start_sec, and every
    entry of segment i starts no later than every entry of a segment j
    with i < j.  The collected list is the entries of the segments, one
    segment after the other. *)
Theorem entries_ordered (segment_sec : Z)
    (transcribe : Path -> TranscribeResult) (segs : list Path) :
  (forall p, In p segs -> well_timed segment_sec (transcribe p)) ->
  snd (main_loop segment_sec transcribe segs)
    = List.concat (map (fun it => segment_entries segment_sec (fst it)
                                    (transcribe (snd it)))
                       (enumerate 0 segs))
  /\ StronglySorted Qle
       (map start_sec (snd (main_loop segment_sec transcribe segs)))
  /\ forall (i j : nat) (pi pj : Path) (ei ej : Entry),
       (i < j)%nat ->
       nth_error segs i = Some pi -> nth_error segs j = Some pj ->
       In ei (segment_entries segment_sec (Z.of_nat i) (transcribe pi)) ->
       In ej (segment_entries segment_sec (Z.of_nat j) (transcribe pj)) ->
       (start_sec ei <= start_sec ej)%Q.
Proof.
  intros H. split; [apply main_loop_entries|]. split.
  - rewrite main_loop_entries. now apply concat_entries_sorted.
  - intros i j pi pj ei ej Hij Hi Hj Hei Hej.
    assert (Hpi : well_timed segment_sec (transcribe pi))
      by (apply H; eapply nth_error_In; eassumption).
    assert (Hpj : well_timed segment_sec (transcribe pj))
      by (apply H; eapply nth_error_In; eassumption).
    destruct (segment_entries_bounds _ _ _ _ Hpi Hei) as (Hd & _ & Hup).
    destruct (segment_entries_bounds _ _ _ _ Hpj Hej) as (_ & Hlo & _).
    apply Qle_trans with (2 := Hlo). apply Qle_trans with (1 := Hup).
    apply offsets_monotone; [lia | exact Hd].
Qed.

Lemma entries_ordered_witness :
  snd (main_loop 25 two_tokens [lit "seg_000000.wav"; lit "seg_000001.wav"])
    = List.concat
        (map (fun it => segment_entries 25 (fst it) (two_tokens (snd it)))
             (enumerate 0 [lit "seg_000000.wav"; lit "seg_000001.wav"]))
  /\ StronglySorted Qle
       (map start_sec
          (snd (main_loop 25 two_tokens
                  [lit "seg_000000.wav"; lit "seg_000001.wav"])))
  /\ forall (i j : nat) (pi pj : Path) (ei ej : Entry),
       (i < j)%nat ->
       nth_error [lit "seg_000000.wav"; lit "seg_000001.wav"] i = Some pi ->
       nth_error [lit "seg_000000.wav"; lit "seg_000001.wav"] j = Some pj ->
       In ei (segment_entries 25 (Z.of_nat i) (two_tokens pi)) ->
       In ej (segment_entries 25 (Z.of_nat j) (two_tokens pj)) ->
       (start_sec ei <= start_sec ej)%Q.
Proof.
  apply (entries_ordered 25 two_tokens
           [lit "seg_000000.wav"; lit "seg_000001.wav"]).
  intros p _ sws E. injection E as <-.
  split; repeat constructor; discriminate.
Defined.

(** ** Decimal numerals *)

Section Digits.

Lemma isdigit_range (c : Z) : isdigit c = true <-> 48 <= c <= 57.
Proof. unfold isdigit. lia. Qed.

Lemma len_cons (c : Z) (s : pystr) : len (c :: s) = len s + 1.
Proof. unfold len. simpl List.length. lia. Qed.

Lemma len_app (s t : pystr) : len (s ++ t) = len s + len t.
Proof. unfold len. rewrite length_app. lia. Qed.

Lemma len_nonneg (s : pystr) : 0 <= len s.
Proof. unfold len. lia. Qed.

Lemma int_of_digits_acc (s : pystr) (acc : Z) :
  fold_left (fun a c => 10 * a + (c - 48)) s acc
  = acc * 10 ^ len s + int_of_digits s.
Proof.
  unfold int_of_digits. revert acc.
  induction s as [|c s IH]; intros acc.
  - simpl. unfold len. simpl. lia.
  - cbn [fold_left]. rewrite IH, (IH (10 * 0 + (c - 48))), len_cons.
    rewrite Z.pow_add_r by (pose proof (len_nonneg s); lia). ring.
Qed.

Lemma int_of_digits_cons (c : Z) (s : pystr) :
  int_of_digits (c :: s) = (c - 48) * 10 ^ len s + int_of_digits s.
Proof.
  unfold int_of_digits at 1. cbn [fold_left]. rewrite int_of_digits_acc. ring.
Qed.

Lemma int_of_digits_snoc (s : pystr) (c : Z) :
  int_of_digits (s ++ [c]) = 10 * int_of_digits s + (c - 48).
Proof. unfold int_of_digits. now rewrite fold_left_app. Qed.

Lemma int_of_digits_bound (s : pystr) :
  all_digits s -> 0 <= int_of_digits s < 10 ^ len s.
Proof.
  induction 1 as [|c s Hc _ IH].
  - unfold int_of_digits, len. simpl. lia.
  - rewrite int_of_digits_cons, len_cons.
    rewrite Z.pow_add_r by (pose proof (len_nonneg s); lia).
    apply isdigit_range in Hc. nia.
Qed.

Lemma decode_from_digits (s : pystr) (acc : Z) :
  all_digits s ->
  decode_from acc s = Some (acc * 10 ^ len s + int_of_digits s).
Proof.
  intros H. revert acc. induction H as [|c s Hc _ IH]; intros acc.
  - simpl. unfold len, int_of_digits. simpl. f_equal. lia.
  - cbn [decode_from]. rewrite Hc, IH, int_of_digits_cons, len_cons.
    rewrite Z.pow_add_r by (pose proof (len_nonneg s); lia). f_equal. ring.
Qed.

Lemma decode_dec_digits (s : pystr) :
  all_digits s -> s <> [] -> decode_dec s = Some (int_of_digits s).
Proof.
  intros H Hne. destruct s as [|c s]; [congruence|].
  unfold decode_dec. now rewrite decode_from_digits.
Qed.

Lemma digits_fuel_acc (f : nat) (n : Z) (acc : pystr) :
  digits_fuel f n acc = digits_fuel f n [] ++ acc.
Proof.
  revert n acc. induction f as [|f IH]; intros n acc; [reflexivity|].
  cbn [digits_fuel]. destruct (n <? 10); [reflexivity|].
  rewrite (IH _ (_ :: acc)), (IH _ [_]), <- app_assoc. reflexivity.
Qed.

Lemma digits_fuel_unfold (f : nat) (n : Z) :
  digits_fuel (S f) n []
  = if n <? 10 then [digit_char (n mod 10)]
    else digits_fuel f (n / 10) [] ++ [digit_char (n mod 10)].
Proof.
  cbn [digits_fuel]. destruct (n <? 10); [reflexivity|].
  apply digits_fuel_acc.
Qed.

Lemma digits_fuel_spec (f : nat) (n : Z) :
  0 <= n < 2 ^ Z.of_nat f ->
  all_digits (digits_fuel f n [])
  /\ int_of_digits (digits_fuel f n []) = n
  /\ n < 10 ^ len (digits_fuel f n [])
  /\ (1 <= n -> digits_fuel f n [] <> []
                /\ 10 ^ (len (digits_fuel f n []) - 1) <= n).
Proof.
  revert n. induction f as [|f IH]; intros n Hn.
  - simpl in Hn. assert (n = 0) by lia. subst n. simpl.
    repeat split; try constructor; try (unfold len; simpl; lia); lia.
  - rewrite digits_fuel_unfold. destruct (Z.ltb_spec n 10) as [Hlt|Hge].
    + rewrite Z.mod_small by lia. unfold digit_char.
      repeat split.
      * constructor; [apply isdigit_range; lia | constructor].
      * unfold int_of_digits. cbn [fold_left]. lia.
      * change (len [48 + n]) with 1. lia.
      * discriminate.
      * change (len [48 + n]) with 1. change (10 ^ (1 - 1)) with 1. lia.
    + rewrite Nat2Z.inj_succ, Z.pow_succ_r in Hn by lia.
      assert (Hq : 0 <= n / 10 < 2 ^ Z.of_nat f).
      { split; [apply Z.div_pos; lia|].
        apply Z.div_lt_upper_bound; lia. }
      destruct (IH _ Hq) as (Hd & Hv & Hub & Hlb).
      assert (H1 : 1 <= n / 10) by (apply Z.div_le_lower_bound; lia).
      destruct (Hlb H1) as [Hne Hlo].
      pose proof (Z.div_mod n 10 ltac:(lia)) as Hdm.
      pose proof (Z.mod_pos_bound n 10 ltac:(lia)) as Hm.
      set (s := digits_fuel f (n / 10) []) in *.
      assert (Hlen : 1 <= len s).
      { destruct s; [congruence|]. rewrite len_cons.
        pose proof (len_nonneg s). lia. }
      repeat split.
      * apply Forall_app. split; [exact Hd|].
        constructor; [|constructor]. apply isdigit_range.
        unfold digit_char. lia.
      * rewrite int_of_digits_snoc, Hv. unfold digit_char. lia.
      * rewrite len_app. change (len [digit_char (n mod 10)]) with 1.
        rewrite Z.pow_add_r by lia. lia.
      * intros E. apply app_eq_nil in E. destruct E as [_ E]. discriminate.
      * rewrite len_app. change (len [digit_char (n mod 10)]) with 1.
        replace (len s + 1 - 1) with (1 + (len s - 1)) by lia.
        rewrite Z.pow_add_r by lia. lia.
Qed.

Lemma digits_fuel_adequate (n : Z) :
  0 <= n -> 0 <= n < 2 ^ Z.of_nat (S (Z.to_nat (Z.log2 n))).
Proof.
  intros Hn. split; [exact Hn|].
  rewrite Nat2Z.inj_succ, Z2Nat.id by apply Z.log2_nonneg.
  destruct (Z.eq_dec n 0) as [->|Hnz]; [simpl; lia|].
  apply Z.log2_spec. lia.
Qed.

Lemma digits_nonempty (n : Z) : digits n <> [].
Proof.
  unfold digits. rewrite digits_fuel_unfold.
  destruct (n <? 10); [discriminate|].
  intros E. apply app_eq_nil in E. destruct E as [_ E]. discriminate.
Qed.

Lemma digits_spec (n : Z) :
  0 <= n ->
  all_digits (digits n) /\ int_of_digits (digits n) = n
  /\ n < 10 ^ len (digits n)
  /\ (1 <= n -> 10 ^ (len (digits n) - 1) <= n).
Proof.
  intros Hn.
  destruct (digits_fuel_spec _ n (digits_fuel_adequate n Hn))
    as (Hd & Hv & Hub & Hlb).
  repeat split; auto. intros H1. now destruct (Hlb H1).
Qed.

Lemma digits_len_pos (n : Z) : 1 <= len (digits n).
Proof.
  pose proof (digits_nonempty n). destruct (digits n); [congruence|].
  rewrite len_cons. pose proof (len_nonneg p). lia.
Qed.

Lemma digits_len_le (n : Z) (k : Z) :
  0 <= n < 10 ^ k -> 1 <= k -> len (digits n) <= k.
Proof.
  intros [Hn Hk] Hk1. destruct (Z.eq_dec n 0) as [->|Hnz].
  - change (len (digits 0)) with 1. exact Hk1.
  - destruct (digits_spec n Hn) as (_ & _ & _ & Hlb).
    specialize (Hlb ltac:(lia)).
    pose proof (digits_len_pos n).
    assert (10 ^ (len (digits n) - 1) < 10 ^ k) by lia.
    apply Z.pow_lt_mono_r_iff in H0; lia.
Qed.

Lemma digits_len_mono (n1 n2 : Z) :
  0 <= n1 <= n2 -> len (digits n1) <= len (digits n2).
Proof.
  intros [H1 H2]. destruct (Z.eq_dec n1 0) as [->|Hnz].
  - change (len (digits 0)) with 1. apply digits_len_pos.
  - destruct (digits_spec n1 H1) as (_ & _ & _ & Hlb).
    specialize (Hlb ltac:(lia)).
    destruct (digits_spec n2 ltac:(lia)) as (_ & _ & Hub & _).
    pose proof (digits_len_pos n1). pose proof (digits_len_pos n2).
    assert (10 ^ (len (digits n1) - 1) < 10 ^ len (digits n2)) by lia.
    apply Z.pow_lt_mono_r_iff in H3; lia.
Qed.

End Digits.

(** ** Rounding *)

Section Rounding.

Local Open Scope Q_scope.

Lemma py_round_floor (x : Q) :
  (Qfloor x <= py_round x <= Qfloor x + 1)%Z.
Proof.
  unfold py_round. destruct (x - inject_Z (Qfloor x) ?= 1 # 2);
    [destruct (Z.even (Qfloor x))|..]; lia.
Qed.

Lemma floor_bounds (x : Q) :
  inject_Z (Qfloor x) <= x /\ x < inject_Z (Qfloor x) + 1.
Proof.
  split; [apply Qfloor_le|].
  pose proof (Qlt_floor x) as H. now rewrite inject_Z_plus in H.
Qed.

Lemma py_round_nearest (x : Q) :
  x - (1 # 2) <= inject_Z (py_round x) <= x + (1 # 2).
Proof.
  destruct (floor_bounds x) as [Hlo Hhi]. unfold py_round.
  destruct (Qcompare_spec (x - inject_Z (Qfloor x)) (1 # 2)) as [E|E|E];
    [destruct (Z.even (Qfloor x))|..];
    rewrite ?inject_Z_plus; change (inject_Z 1) with 1; lra.
Qed.

Lemma py_round_tie_even (x : Q) :
  inject_Z (py_round x) == x - (1 # 2) \/ inject_Z (py_round x) == x + (1 # 2) ->
  Z.even (py_round x) = true.
Proof.
  destruct (floor_bounds x) as [Hlo Hhi]. unfold py_round.
  destruct (Qcompare_spec (x - inject_Z (Qfloor x)) (1 # 2)) as [E|E|E].
  - intros _. destruct (Z.even (Qfloor x)) eqn:Ev; [exact Ev|].
    rewrite Z.add_1_r, Z.even_succ, <- Z.negb_even, Ev. reflexivity.
  - intros [H|H]; lra.
  - rewrite inject_Z_plus. change (inject_Z 1) with 1. intros [H|H]; lra.
Qed.

Lemma py_round_mono (x y : Q) : x <= y -> (py_round x <= py_round y)%Z.
Proof.
  intros Hxy. pose proof (Qfloor_resp_le x y Hxy) as Hf.
  destruct (Z.eq_dec (Qfloor x) (Qfloor y)) as [Ef|Nf].
  - destruct (floor_bounds x) as [Hlo Hhi]. unfold py_round. rewrite Ef.
    destruct (Qcompare_spec (x - inject_Z (Qfloor y)) (1 # 2)) as [E1|E1|E1];
      destruct (Qcompare_spec (y - inject_Z (Qfloor y)) (1 # 2)) as [E2|E2|E2];
      try destruct (Z.even (Qfloor y)); try lia; lra.
  - pose proof (py_round_floor x). pose proof (py_round_floor y). lia.
Qed.

Lemma py_round_nonneg (x : Q) : 0 <= x -> (0 <= py_round x)%Z.
Proof.
  intros Hx. pose proof (Qfloor_resp_le 0 x Hx) as H.
  change (Qfloor 0) with 0%Z in H. pose proof (py_round_floor x). lia.
Qed.

(** The clamp of [srt_time]. *)
Lemma srt_ms_clamp (x : Q) :
  (x < 0 -> srt_ms x = py_round (0 * 1000))
  /\ (0 <= x -> srt_ms x = py_round (x * 1000)).
Proof.
  unfold srt_ms. destruct (Qcompare_spec x 0) as [E|E|E]; split; intros H;
    try reflexivity; lra.
Qed.

Lemma srt_ms_nonneg (x : Q) : (0 <= srt_ms x)%Z.
Proof.
  unfold srt_ms. apply py_round_nonneg.
  destruct (Qcompare_spec x 0) as [E|E|E]; lra.
Qed.

Lemma srt_ms_mono (a b : Q) : a <= b -> (srt_ms a <= srt_ms b)%Z.
Proof.
  intros Hab. unfold srt_ms. apply py_round_mono.
  destruct (Qcompare_spec a 0) as [Ea|Ea|Ea];
    destruct (Qcompare_spec b 0) as [Eb|Eb|Eb]; lra.
Qed.

End Rounding.

(** ** Formatted fields and their order *)

Section Format.

Lemma len_length (s t : pystr) : len s = len t <-> List.length s = List.length t.
Proof. unfold len. lia. Qed.

Lemma str_cmp_app (a b c d : pystr) :
  List.length a = List.length b ->
  str_cmp (a ++ c) (b ++ d)
  = match str_cmp a b with Eq => str_cmp c d | r => r end.
Proof.
  revert b. induction a as [|x a IH]; intros [|y b] H; simpl in *;
    try discriminate; [reflexivity|].
  destruct (x ?= y); auto.
Qed.

Lemma str_cmp_digits (a b : pystr) :
  all_digits a -> all_digits b -> List.length a = List.length b ->
  str_cmp a b = (int_of_digits a ?= int_of_digits b).
Proof.
  intros Ha. revert b. induction Ha as [|x a Hx Ha IH]; intros [|y b] Hb H;
    simpl in H; try discriminate; [reflexivity|].
  inversion Hb as [|? ? Hy Hb']; subst.
  injection H as H. rewrite !int_of_digits_cons.
  assert (El : len a = len b) by now apply len_length.
  pose proof (int_of_digits_bound a Ha) as Ba.
  pose proof (int_of_digits_bound b Hb') as Bb.
  rewrite El in *. set (P := 10 ^ len b) in *.
  cbn [str_cmp]. destruct (Z.compare_spec x y) as [E|E|E].
  - subst y. rewrite (IH b Hb' H). symmetry. apply Z.add_compare_mono_l.
  - symmetry. apply Z.compare_lt_iff. nia.
  - symmetry. apply Z.compare_gt_iff. nia.
Qed.

Lemma zfill_spec (w : nat) (ds : pystr) :
  all_digits ds ->
  all_digits (zfill w ds)
  /\ int_of_digits (zfill w ds) = int_of_digits ds
  /\ List.length (zfill w ds) = Nat.max w (List.length ds).
Proof.
  intros H. unfold zfill. split; [|split].
  - apply Forall_app. split; [|exact H].
    apply Forall_forall. intros c Hc. apply repeat_spec in Hc. now subst c.
  - induction (w - List.length ds)%nat as [|k IH]; [reflexivity|].
    cbn [repeat app]. rewrite int_of_digits_cons, IH.
    unfold digit_char. lia.
  - rewrite length_app, repeat_length. lia.
Qed.

Lemma fmt_d_spec (w : nat) (n : Z) :
  0 <= n ->
  all_digits (fmt_d w n)
  /\ int_of_digits (fmt_d w n) = n
  /\ List.length (fmt_d w n) = Nat.max w (List.length (digits n))
  /\ decode_dec (fmt_d w n) = Some n.
Proof.
  intros Hn. unfold fmt_d. destruct (Z.ltb_spec n 0) as [?|_]; [lia|].
  destruct (digits_spec n Hn) as (Hd & Hv & _).
  destruct (zfill_spec w (digits n) Hd) as (Zd & Zv & Zl).
  repeat split; auto; try congruence.
  rewrite decode_dec_digits; [congruence | exact Zd |].
  intros E. apply (f_equal (@List.length Z)) in E. rewrite Zl in E.
  pose proof (digits_len_pos n). unfold len in *. simpl in E. lia.
Qed.

Lemma fmt_d_width (w : nat) (n : Z) :
  0 <= n < 10 ^ Z.of_nat w -> (1 <= w)%nat ->
  List.length (fmt_d w n) = w.
Proof.
  intros Hn Hw. destruct (fmt_d_spec w n (proj1 Hn)) as (_ & _ & Hl & _).
  rewrite Hl. pose proof (digits_len_le n (Z.of_nat w) Hn ltac:(lia)).
  unfold len in *. lia.
Qed.

Lemma compare_div_mod (t1 t2 d : Z) :
  0 < d ->
  (t1 ?= t2)
  = match t1 / d ?= t2 / d with
    | Eq => t1 mod d ?= t2 mod d
    | r => r
    end.
Proof.
  intros Hd.
  pose proof (Z.div_mod t1 d ltac:(lia)). pose proof (Z.div_mod t2 d ltac:(lia)).
  pose proof (Z.mod_pos_bound t1 d Hd). pose proof (Z.mod_pos_bound t2 d Hd).
  destruct (Z.compare_spec (t1 / d) (t2 / d)) as [E|E|E].
  - rewrite H, H0, E at 1. apply Z.add_compare_mono_l.
  - apply Z.compare_lt_iff. nia.
  - apply Z.compare_gt_iff. nia.
Qed.

(** The fields of a rendered timestamp. *)
Lemma render_fields (t : Z) :
  0 <= t ->
  0 <= t / 3600000
  /\ 0 <= t mod 3600000 / 60000 <= 59
  /\ 0 <= t mod 3600000 mod 60000 / 1000 <= 59
  /\ 0 <= t mod 3600000 mod 60000 mod 1000 <= 999
  /\ t = ((t / 3600000 * 60 + t mod 3600000 / 60000) * 60
          + t mod 3600000 mod 60000 / 1000) * 1000
         + t mod 3600000 mod 60000 mod 1000.
Proof.
  intros Ht.
  pose proof (Z.div_mod t 3600000 ltac:(lia)).
  pose proof (Z.mod_pos_bound t 3600000 ltac:(lia)).
  set (r := t mod 3600000) in *.
  pose proof (Z.div_mod r 60000 ltac:(lia)).
  pose proof (Z.mod_pos_bound r 60000 ltac:(lia)).
  set (q := r mod 60000) in *.
  pose proof (Z.div_mod q 1000 ltac:(lia)).
  pose proof (Z.mod_pos_bound q 1000 ltac:(lia)).
  lia.
Qed.

Lemma render_length (t : Z) :
  0 <= t ->
  List.length (render_ms t)
  = (Nat.max 2 (List.length (digits (t / 3600000))) + 10)%nat.
Proof.
  intros Ht. destruct (render_fields t Ht) as (Hh & Hm & Hs & Hk & _).
  unfold render_ms. rewrite !length_app.
  destruct (fmt_d_spec 2 (t / 3600000) Hh) as (_ & _ & -> & _).
  rewrite !fmt_d_width by (try (change (10 ^ Z.of_nat 2) with 100);
                           try (change (10 ^ Z.of_nat 3) with 1000); lia).
  simpl. lia.
Qed.

Lemma render_length_mono (t1 t2 : Z) :
  0 <= t1 <= t2 ->
  (List.length (render_ms t1) <= List.length (render_ms t2))%nat.
Proof.
  intros [H1 H2]. rewrite !render_length by lia.
  assert (0 <= t1 / 3600000 <= t2 / 3600000).
  { split; [apply Z.div_pos; lia | apply Z.div_le_mono; lia]. }
  pose proof (digits_len_mono _ _ H). unfold len in *. lia.
Qed.

Lemma render_cmp (t1 t2 : Z) :
  0 <= t1 -> 0 <= t2 ->
  List.length (render_ms t1) = List.length (render_ms t2) ->
  str_cmp (render_ms t1) (render_ms t2) = (t1 ?= t2).
Proof.
  intros H1 H2 Hl.
  destruct (render_fields t1 H1) as (Hh1 & Hm1 & Hs1 & Hk1 & _).
  destruct (render_fields t2 H2) as (Hh2 & Hm2 & Hs2 & Hk2 & _).
  assert (Hlh : List.length (fmt_d 2 (t1 / 3600000))
                = List.length (fmt_d 2 (t2 / 3600000))).
  { rewrite !render_length in Hl by assumption.
    destruct (fmt_d_spec 2 (t1 / 3600000) Hh1) as (_ & _ & -> & _).
    destruct (fmt_d_spec 2 (t2 / 3600000) Hh2) as (_ & _ & -> & _). lia. }
  assert (W2 : forall n, 0 <= n <= 59 -> List.length (fmt_d 2 n) = 2%nat).
  { intros n Hn. apply fmt_d_width; [change (10 ^ Z.of_nat 2) with 100|]; lia. }
  assert (C : forall w a b, 0 <= a -> 0 <= b ->
              List.length (fmt_d w a) = List.length (fmt_d w b) ->
              str_cmp (fmt_d w a) (fmt_d w b) = (a ?= b)).
  { intros w a b Ha Hb Hab.
    destruct (fmt_d_spec w a Ha) as (Da & Va & _).
    destruct (fmt_d_spec w b Hb) as (Db & Vb & _).
    rewrite (str_cmp_digits _ _ Da Db Hab). congruence. }
  rewrite (compare_div_mod t1 t2 3600000) by lia.
  rewrite (compare_div_mod (t1 mod 3600000) (t2 mod 3600000) 60000) by lia.
  rewrite (compare_div_mod (t1 mod 3600000 mod 60000)
             (t2 mod 3600000 mod 60000) 1000) by lia.
  unfold render_ms.
  rewrite str_cmp_app, C by (lia || assumption).
  destruct (t1 / 3600000 ?= t2 / 3600000); try reflexivity.
  change (lit ":") with [58]. change (lit ",") with [44].
  cbn [app str_cmp]. rewrite Z.compare_refl.
  rewrite str_cmp_app, C by (rewrite ?W2; lia).
  destruct (t1 mod 3600000 / 60000 ?= t2 mod 3600000 / 60000);
    try reflexivity.
  cbn [app str_cmp]. rewrite Z.compare_refl.
  rewrite str_cmp_app, C by (rewrite ?W2; lia).
  destruct (t1 mod 3600000 mod 60000 / 1000
            ?= t2 mod 3600000 mod 60000 / 1000); try reflexivity.
  cbn [app str_cmp]. rewrite Z.compare_refl.
  apply C; try lia.
  rewrite !fmt_d_width; try reflexivity;
    try (change (10 ^ Z.of_nat 3) with 1000); lia.
Qed.

Lemma srt_time_render (x : Q) : srt_time x = render_ms (srt_ms x).
Proof. reflexivity. Qed.

End Format.

(** ** The time codec: the claims *)

(** C3, as the code has it.  A negative input is clamped to 0, so it gives
    00:00:00,000, as do -5 and 0.  For any other input [srt_time] multiplies
    by 1000 in binary64 and rounds that product to an integer with Python's
    [round]: the millisecond count is the integer nearest to the product
    (when the product is finite; otherwise [round] raises), and when two
    integers are equally near it is the even one, not the one away from
    zero.  So 0.0625 s, whose product is 62.5, gives 062.  The product is
    itself rounded to binary64: for the binary64 number written 0.0005,
    which is above 1/2000, it is exactly 0.5, and the count is 0. *)
Theorem srt_time_b64_rounds_half_even (x : float) :
  ((x <? 0)%float = true -> srt_time_b64 x = Some (lit "00:00:00,000"))
  /\ ((x <? 0)%float = false ->
      forall q : Q,
        Q_of_float (x * 1000)%float = Some q ->
        exists ms : Z,
          srt_ms_b64 x = Some ms
          /\ srt_time_b64 x = Some (render_ms ms)
          /\ (q - (1 # 2) <= inject_Z ms <= q + (1 # 2))%Q
          /\ ((inject_Z ms == q - (1 # 2) \/ inject_Z ms == q + (1 # 2))%Q ->
              Z.even ms = true))
  /\ ((x <? 0)%float = false ->
      Q_of_float (x * 1000)%float = None -> srt_time_b64 x = None)
  /\ srt_time_b64 (-5) = Some (lit "00:00:00,000")
  /\ srt_time_b64 0 = Some (lit "00:00:00,000")
  /\ srt_time_b64 0.0625 = Some (lit "00:00:00,062")
  /\ srt_time_b64 0.0005 = Some (lit "00:00:00,000")
  /\ (exists q : Q, Q_of_float 0.0005 = Some q /\ ((1 # 2000) < q)%Q)
  /\ option_map Qred (Q_of_float (0.0005 * 1000)%float) = Some (1 # 2).
Proof.
  split; [|split; [|split]].
  - intros H. unfold srt_time_b64, srt_ms_b64. rewrite H. reflexivity.
  - intros H q Hq. exists (py_round q).
    unfold srt_time_b64, srt_ms_b64. rewrite H, Hq. cbn [option_map].
    split; [reflexivity|]. split; [reflexivity|]. split.
    + apply py_round_nearest.
    + apply py_round_tie_even.
  - intros H Hq. unfold srt_time_b64, srt_ms_b64. rewrite H, Hq. reflexivity.
  - repeat split; try (vm_compute; reflexivity).
    eexists. split; [vm_compute; reflexivity|]. reflexivity.
Qed.

Lemma srt_time_b64_rounds_half_even_witness :
  srt_time_b64 (-1) = Some (lit "00:00:00,000")
  /\ exists (q : Q) (ms : Z),
       Q_of_float (0.0625 * 1000)%float = Some q
       /\ (q == 125 # 2)%Q
       /\ srt_ms_b64 0.0625 = Some ms
       /\ srt_time_b64 0.0625 = Some (render_ms ms)
       /\ (q - (1 # 2) <= inject_Z ms <= q + (1 # 2))%Q
       /\ ((inject_Z ms == q - (1 # 2) \/ inject_Z ms == q + (1 # 2))%Q ->
           Z.even ms = true).
Proof.
  split.
  - apply (proj1 (srt_time_b64_rounds_half_even (-1))). reflexivity.
  - destruct (proj1 (proj2 (srt_time_b64_rounds_half_even 0.0625))
                eq_refl _ eq_refl) as (ms & H1 & H2 & H3 & H4).
    eexists. exists ms. split; [reflexivity|].
    split; [reflexivity|]. repeat split; assumption || apply H3.
Defined.

(** C3, as stated, fails: 0.0625 s is 62.5 ms, which [srt_time] renders as
    062 and rounding half away from zero would render as 063. *)
Lemma srt_time_not_half_away :
  srt_time (1 # 16) = lit "00:00:00,062"
  /\ render_ms (round_half_away_from_zero ((1 # 16) * 1000))
     = lit "00:00:00,063"
  /\ srt_ms (1 # 16) <> round_half_away_from_zero ((1 # 16) * 1000).
Proof. repeat split. vm_compute. discriminate. Qed.

(** C8.  [srt_time] is monotonic: when a <= b the millisecond count of a is
    at most that of b, the timestamp of a is at most as long as that of b,
    and when the two have the same width the one of a comes first (or is
    equal) in dictionary order. *)
Theorem srt_time_monotone (a b : Q) :
  (a <= b)%Q ->
  srt_ms a <= srt_ms b
  /\ timestamp_le (srt_time a) (srt_time b)
  /\ (List.length (srt_time a) = List.length (srt_time b) ->
      str_le (srt_time a) (srt_time b)).
Proof.
  intros Hab. pose proof (srt_ms_mono a b Hab) as Hms.
  pose proof (srt_ms_nonneg a) as Ha. pose proof (srt_ms_nonneg b) as Hb.
  rewrite !srt_time_render.
  assert (Hle : List.length (render_ms (srt_ms a))
                = List.length (render_ms (srt_ms b)) ->
                str_le (render_ms (srt_ms a)) (render_ms (srt_ms b))).
  { intros Hl. unfold str_le. rewrite (render_cmp _ _ Ha Hb Hl).
    now apply Z.compare_le_iff. }
  split; [exact Hms|]. split; [|exact Hle].
  pose proof (render_length_mono (srt_ms a) (srt_ms b) (conj Ha Hms)) as Hl.
  unfold timestamp_le.
  destruct (Nat.eq_dec (List.length (render_ms (srt_ms a)))
              (List.length (render_ms (srt_ms b)))) as [E|N].
  - right. split; [exact E | exact (Hle E)].
  - left. lia.
Qed.

Lemma srt_time_monotone_witness :
  srt_ms 359999 <= srt_ms 360000
  /\ timestamp_le (srt_time 359999) (srt_time 360000)
  /\ (List.length (srt_time 359999) = List.length (srt_time 360000) ->
      str_le (srt_time 359999) (srt_time 360000)).
Proof.
  apply (srt_time_monotone 359999 360000). discriminate.
Defined.

(** C10.  Every timestamp is well formed: it is an hours field, a colon, a
    minutes field, a colon, a seconds field, a comma and a milliseconds
    field; each field is a decimal numeral; minutes and seconds have two
    digits and a value from 0 to 59, milliseconds three digits and a value
    from 0 to 999; the hours field has at least two digits and is the whole
    hour count, so that the four values add up to the millisecond count and
    hours go past 24 and past two digits. *)
Theorem srt_time_well_formed (x : Q) :
  (exists (hh mm ss kk : pystr) (h m s k : Z),
     srt_time x = hh ++ lit ":" ++ mm ++ lit ":" ++ ss ++ lit "," ++ kk
     /\ all_digits hh /\ all_digits mm /\ all_digits ss /\ all_digits kk
     /\ decode_dec hh = Some h /\ decode_dec mm = Some m
     /\ decode_dec ss = Some s /\ decode_dec kk = Some k
     /\ (2 <= List.length hh)%nat /\ List.length mm = 2%nat
     /\ List.length ss = 2%nat /\ List.length kk = 3%nat
     /\ 0 <= h /\ 0 <= m <= 59 /\ 0 <= s <= 59 /\ 0 <= k <= 999
     /\ h = srt_ms x / 3600000
     /\ srt_ms x = ((h * 60 + m) * 60 + s) * 1000 + k)
  /\ srt_time 90000 = lit "25:00:00,000"
  /\ srt_time 360000 = lit "100:00:00,000".
Proof.
  split; [|split; reflexivity].
  pose proof (srt_ms_nonneg x) as Ht. set (t := srt_ms x) in *.
  destruct (render_fields t Ht) as (Hh & Hm & Hs & Hk & Hsum).
  destruct (fmt_d_spec 2 _ Hh) as (Dh & _ & Lh & Vh).
  destruct (fmt_d_spec 2 _ (proj1 Hm)) as (Dm & _ & _ & Vm).
  destruct (fmt_d_spec 2 _ (proj1 Hs)) as (Ds & _ & _ & Vs).
  destruct (fmt_d_spec 3 _ (proj1 Hk)) as (Dk & _ & _ & Vk).
  exists (fmt_d 2 (t / 3600000)), (fmt_d 2 (t mod 3600000 / 60000)),
         (fmt_d 2 (t mod 3600000 mod 60000 / 1000)),
         (fmt_d 3 (t mod 3600000 mod 60000 mod 1000)),
         (t / 3600000), (t mod 3600000 / 60000),
         (t mod 3600000 mod 60000 / 1000), (t mod 3600000 mod 60000 mod 1000).
  repeat match goal with |- _ /\ _ => split end; auto; try lia;
    try (apply fmt_d_width;
         [try (change (10 ^ Z.of_nat 2) with 100);
          try (change (10 ^ Z.of_nat 3) with 1000); lia | lia]).
Qed.

(** ** The segment catalog *)

Section Catalog.

Lemma str_cmp_opp (a b : pystr) : str_cmp b a = CompOpp (str_cmp a b).
Proof.
  revert b. induction a as [|x a IH]; intros [|y b]; cbn [str_cmp];
    try reflexivity.
  destruct (Z.compare_spec x y) as [E|E|E].
  - subst y. rewrite Z.compare_refl. apply IH.
  - apply Z.compare_gt_iff in E. now rewrite E.
  - apply Z.compare_lt_iff in E. now rewrite E.
Qed.


Lemma str_le_trans (a b c : pystr) : str_le a b -> str_le b c -> str_le a c.
Proof.
  unfold str_le. revert b c.
  induction a as [|x a IH]; intros [|y b] [|z c]; cbn [str_cmp];
    try congruence.
  destruct (Z.compare_spec x y), (Z.compare_spec y z), (Z.compare_spec x z);
    subst; try congruence; try lia.
  apply IH.
Qed.

Lemma key_ltb_true (p q : Path) :
  key_ltb (natural_sort_key q) (natural_sort_key p) = true -> key_le q p.
Proof.
  unfold key_ltb, key_le, str_le.
  destruct (Z.compare_spec (fst (natural_sort_key q)) (fst (natural_sort_key p)));
    try discriminate; [|now left].
  destruct (str_cmp _ _) eqn:E; try discriminate. intros _. right.
  split; [assumption | congruence].
Qed.

Lemma key_ltb_false (p q : Path) :
  key_ltb (natural_sort_key q) (natural_sort_key p) = false -> key_le p q.
Proof.
  unfold key_ltb, key_le, str_le.
  destruct (Z.compare_spec (fst (natural_sort_key q)) (fst (natural_sort_key p)));
    try discriminate; [|left; lia].
  rewrite (str_cmp_opp (snd (natural_sort_key q))).
  destruct (str_cmp (snd (natural_sort_key q)) (snd (natural_sort_key p)));
    try discriminate; intros _; right; (split; [lia | simpl; congruence]).
Qed.

Lemma key_le_trans (p q r : Path) : key_le p q -> key_le q r -> key_le p r.
Proof.
  unfold key_le. intros [H1|[E1 L1]] [H2|[E2 L2]];
    try (left; lia).
  right. split; [lia | eapply str_le_trans; eassumption].
Qed.

Lemma insert_by_key_perm (p : Path) (l : list Path) :
  Permutation (insert_by_key p l) (p :: l).
Proof.
  induction l as [|q l IH]; simpl; [reflexivity|].
  destruct (key_ltb _ _); [|reflexivity].
  rewrite IH. apply perm_swap.
Qed.

Lemma sorted_by_key_perm (l : list Path) : Permutation (sorted_by_key l) l.
Proof.
  induction l as [|p l IH]; simpl; [reflexivity|].
  rewrite insert_by_key_perm. now constructor.
Qed.

Lemma insert_by_key_sorted (p : Path) (l : list Path) :
  StronglySorted key_le l -> StronglySorted key_le (insert_by_key p l).
Proof.
  induction l as [|q l IH]; intros H; simpl.
  - repeat constructor.
  - apply StronglySorted_inv in H. destruct H as [Hl Hq].
    destruct (key_ltb _ _) eqn:E.
    + constructor; [now apply IH|].
      apply Forall_forall. intros x Hx.
      apply (Permutation_in _ (insert_by_key_perm p l)) in Hx.
      destruct Hx as [<-|Hx]; [now apply key_ltb_true|].
      rewrite Forall_forall in Hq. now apply Hq.
    + apply key_ltb_false in E. constructor; [now constructor|].
      constructor; [exact E|].
      apply Forall_forall. intros x Hx. rewrite Forall_forall in Hq.
      eapply key_le_trans; [exact E | now apply Hq].
Qed.

Lemma sorted_by_key_sorted (l : list Path) :
  StronglySorted key_le (sorted_by_key l).
Proof.
  induction l as [|p l IH]; simpl; [constructor|].
  now apply insert_by_key_sorted.
Qed.

Lemma sorted_by_key_truthy (l : list Path) :
  truthy (sorted_by_key l) = truthy l.
Proof.
  pose proof (sorted_by_key_perm l) as H.
  destruct l as [|p l].
  - reflexivity.
  - destruct (sorted_by_key (p :: l)) eqn:E; [|reflexivity].
    apply Permutation_nil in H. discriminate.
Qed.

Lemma decimal_value_range (c d : Z) :
  decimal_value c = Some d -> 0 <= d <= 9.
Proof.
  unfold decimal_value.
  destruct (find _ decimal_zeros) as [z|] eqn:E; [|discriminate].
  apply find_some in E. destruct E as [_ E]. intros [= <-]. lia.
Qed.

Lemma isdigit_decimal (c : Z) :
  isdigit c = true -> decimal_value c = Some (c - 48).
Proof.
  intros H. apply isdigit_range in H. unfold decimal_value, decimal_zeros.
  cbn [find]. destruct (Z.leb_spec 48 c); [|lia].
  destruct (Z.ltb_spec c (48 + 10)); [reflexivity | lia].
Qed.

Lemma isdigit_isdecimal (c : Z) : isdigit c = true -> isdecimal c = true.
Proof. intros H. unfold isdecimal. now rewrite (isdigit_decimal c H). Qed.

Lemma int_of_decimals_acc_nonneg (s : pystr) (acc : Z) :
  0 <= acc ->
  0 <= fold_left (fun a c => 10 * a + match decimal_value c with
                                      | Some d => d
                                      | None => 0
                                      end) s acc.
Proof.
  revert acc. induction s as [|c s IH]; intros acc Hacc; [exact Hacc|].
  cbn [fold_left]. apply IH.
  destruct (decimal_value c) as [d|] eqn:E; [|lia].
  apply decimal_value_range in E. lia.
Qed.

Lemma int_of_decimals_nonneg (s : pystr) : 0 <= int_of_decimals s.
Proof. apply int_of_decimals_acc_nonneg. lia. Qed.

(** On ASCII digits [int] reads the usual decimal value. *)
Lemma int_of_decimals_digits (s : pystr) :
  all_digits s -> int_of_decimals s = int_of_digits s.
Proof.
  intros H. unfold int_of_decimals, int_of_digits.
  assert (G : forall acc,
            fold_left (fun a c => 10 * a + match decimal_value c with
                                           | Some d => d
                                           | None => 0
                                           end) s acc
            = fold_left (fun a c => 10 * a + (c - 48)) s acc).
  { induction H as [|c s Hc _ IH]; intros acc; [reflexivity|].
    cbn [fold_left]. rewrite (isdigit_decimal c Hc). apply IH. }
  apply G.
Qed.

Lemma first_digit_run_none (s : pystr) :
  first_digit_run s = None <-> forallb (fun c => negb (isdecimal c)) s = true.
Proof.
  induction s as [|c s IH]; simpl; [tauto|].
  destruct (isdecimal c); simpl; [split; discriminate | exact IH].
Qed.

Lemma natural_sort_key_number (p : Path) :
  -1 <= fst (natural_sort_key p)
  /\ (fst (natural_sort_key p) = -1
      <-> forallb (fun c => negb (isdecimal c)) (stem p) = true).
Proof.
  unfold natural_sort_key. cbn [fst].
  rewrite <- first_digit_run_none.
  destruct (first_digit_run (stem p)) as [run|] eqn:E.
  - pose proof (int_of_decimals_nonneg run).
    split; [lia|]. split; [lia | discriminate].
  - split; [lia|]. split; reflexivity.
Qed.

Lemma take_digits_run (run post : pystr) :
  Forall (fun c => isdecimal c = true) run ->
  take_digits post = [] ->
  take_digits (run ++ post) = run.
Proof.
  intros H Hp. induction H as [|c run Hc _ IH]; [exact Hp|].
  simpl. now rewrite Hc, IH.
Qed.

(** The run that [re.search] finds: the decimal digits that follow the
    digit-free beginning of the string, up to the first other character. *)
Lemma first_digit_run_found (pre run post : pystr) :
  forallb (fun c => negb (isdecimal c)) pre = true ->
  run <> [] ->
  Forall (fun c => isdecimal c = true) run ->
  take_digits post = [] ->
  first_digit_run (pre ++ run ++ post) = Some run.
Proof.
  intros Hpre Hne Hrun Hpost. induction pre as [|x pre IH].
  - destruct run as [|c run]; [congruence|].
    apply Forall_cons_iff in Hrun. destruct Hrun as [Hc Hrun].
    simpl. now rewrite Hc, take_digits_run.
  - simpl in Hpre. apply andb_true_iff in Hpre. destruct Hpre as [Hx Hpre].
    apply negb_true_iff in Hx. simpl. rewrite Hx. now apply IH.
Qed.

Lemma startswith_app (pre s : pystr) :
  startswith pre s = true -> exists t, s = pre ++ t.
Proof.
  revert s. induction pre as [|x pre IH]; intros s H; [now exists s|].
  destruct s as [|y s]; [discriminate|]. simpl in H.
  apply andb_true_iff in H. destruct H as [E H]. apply Z.eqb_eq in E.
  destruct (IH s H) as [t ->]. exists t. now subst y.
Qed.

Lemma endswith_app (suf s : pystr) :
  endswith suf s = true -> exists t, s = t ++ suf.
Proof.
  unfold endswith. intros H. apply startswith_app in H. destruct H as [t H].
  exists (rev t). apply (f_equal (@rev Z)) in H.
  now rewrite rev_involutive, rev_app_distr, rev_involutive in H.
Qed.

Lemma rfind_from_absent (c : Z) (s : pystr) (i best : Z) :
  forallb (fun x => negb (x =? c)) s = true -> rfind_from c s i best = best.
Proof.
  revert i best. induction s as [|x s IH]; intros i best H; [reflexivity|].
  simpl in H. apply andb_true_iff in H. destruct H as [Hx H].
  cbn [rfind_from]. apply negb_true_iff in Hx. rewrite Hx. now apply IH.
Qed.

Lemma rfind_from_last (c : Z) (u v : pystr) (i best : Z) :
  forallb (fun x => negb (x =? c)) v = true ->
  rfind_from c (u ++ c :: v) i best = i + len u.
Proof.
  intros Hv. revert i best. induction u as [|x u IH]; intros i best.
  - cbn [app rfind_from]. rewrite Z.eqb_refl, rfind_from_absent by exact Hv.
    unfold len. simpl. lia.
  - cbn [app rfind_from]. rewrite IH, len_cons. lia.
Qed.

(** The stem of a file that matches seg_*.wav is its name without .wav. *)
Lemma stem_seg_wav (p : Path) :
  glob_seg_wav p = true -> exists mid, p = stem p ++ lit ".wav"
                                       /\ stem p = lit "seg_" ++ mid.
Proof.
  unfold glob_seg_wav. intros H. apply andb_true_iff in H.
  destruct H as [H1 H2]. apply startswith_app in H1. destruct H1 as [t ->].
  change (skipn 4 (lit "seg_" ++ t)) with t in H2.
  apply endswith_app in H2. destruct H2 as [mid ->]. exists mid.
  assert (E : stem (lit "seg_" ++ mid ++ lit ".wav") = lit "seg_" ++ mid).
  { unfold stem, rfind.
    replace (lit "seg_" ++ mid ++ lit ".wav")
      with ((lit "seg_" ++ mid) ++ 46 :: lit "wav")
      by (rewrite <- app_assoc; reflexivity).
    rewrite rfind_from_last by reflexivity.
    rewrite !len_app, len_cons. change (len (lit "seg_")) with 4.
    change (len (lit "wav")) with 3. pose proof (len_nonneg mid).
    destruct (Z.ltb_spec 0 (0 + (4 + len mid))); [|lia].
    destruct (Z.ltb_spec (0 + (4 + len mid)) (4 + len mid + (3 + 1) - 1));
      [|lia].
    cbn [andb].
    assert (El : Z.to_nat (0 + (4 + len mid))
                 = List.length (lit "seg_" ++ mid)).
    { rewrite length_app. change (List.length (lit "seg_")) with 4%nat.
      unfold len. lia. }
    rewrite El, firstn_app, firstn_all, Nat.sub_diag. cbn [firstn].
    now rewrite app_nil_r. }
  rewrite E. split; [|reflexivity]. now rewrite <- app_assoc.
Qed.

Lemma take_digits_app (u v : pystr) :
  take_digits v = [] -> take_digits (u ++ v) = take_digits u.
Proof.
  intros Hv. induction u as [|x u IH]; simpl; [exact Hv|].
  destruct (isdecimal x); [now rewrite IH | reflexivity].
Qed.

Lemma first_digit_run_app (u v : pystr) :
  first_digit_run v = None -> first_digit_run (u ++ v) = first_digit_run u.
Proof.
  intros Hv. induction u as [|x u IH]; simpl; [exact Hv|].
  destruct (isdecimal x); [|exact IH].
  rewrite take_digits_app; [reflexivity|].
  destruct v as [|c v]; [reflexivity|]. simpl in *.
  destruct (isdecimal c); [discriminate | reflexivity].
Qed.

(** For a segment file the number of the key is read from the file name:
    the suffix .wav holds no digit. *)
Lemma natural_sort_key_seg_wav (p : Path) :
  glob_seg_wav p = true -> first_digit_run (stem p) = first_digit_run p.
Proof.
  intros H. destruct (stem_seg_wav p H) as (mid & E & _).
  rewrite E at 2. symmetry. now apply first_digit_run_app.
Qed.

Lemma catalog_fst (segment_sec : Z) (segs : list Path) :
  map fst (catalog segment_sec segs) = segs.
Proof.
  unfold catalog. generalize 0. induction segs as [|p segs IH]; intros k;
    simpl; [reflexivity|]. now rewrite IH.
Qed.

Lemma catalog_snd (segment_sec : Z) (segs : list Path) :
  map snd (catalog segment_sec segs)
  = map (fun i => segment_offset_of segment_sec (Z.of_nat i))
        (seq 0 (List.length segs)).
Proof.
  unfold catalog. change 0 with (Z.of_nat 0) at 1. generalize 0%nat.
  induction segs as [|p segs IH]; intros k; simpl; [reflexivity|].
  f_equal. replace (Z.of_nat k + 1) with (Z.of_nat (S k)) by lia. apply IH.
Qed.

End Catalog.

(** C4.  The segment files are put in the order of their keys: the number
    read from the first run of decimal digits of the stem (for a file that
    matches seg_*.wav, the first run of digits of the file name), -1 (below
    every number read) exactly when the stem has no digit, and then the
    name.  The number is the decimal value of the run: a stem made of a
    digit-free beginning, a run of digits and a rest that does not go on
    with a digit has the value of that run, which for the numeral of n is
    n; a file with a smaller number comes before one with a larger number.
    The sorted list is a rearrangement of the files that match seg_*.wav,
    and there is no result when none matches.  The offset of a segment is
    its 0-based position in that order times the segment duration, and it
    is the offset the assembler is given.  So seg_000003, seg_000001,
    seg_000002, with the keys 3, 1 and 2, and a duration of 25 come out as
    seg_000001, seg_000002, seg_000003 at 0, 25 and 50, and seg_000007,
    seg_000004 come out as seg_000004 at 0 and seg_000007 at 25, whatever
    the numbers in the names. *)
Theorem segment_catalog (listing segs : list Path) (segment_sec : Z)
    (transcribe : Path -> TranscribeResult) (p : Path) :
  Permutation (sorted_by_key (filter glob_seg_wav listing))
    (filter glob_seg_wav listing)
  /\ StronglySorted key_le (sorted_by_key (filter glob_seg_wav listing))
  /\ segment_audio_from_video listing
     = (if truthy (filter glob_seg_wav listing)
        then Some (sorted_by_key (filter glob_seg_wav listing)) else None)
  /\ -1 <= fst (natural_sort_key p)
  /\ (fst (natural_sort_key p) = -1
      <-> forallb (fun c => negb (isdecimal c)) (stem p) = true)
  /\ snd (natural_sort_key p) = p
  /\ (glob_seg_wav p = true -> first_digit_run (stem p) = first_digit_run p)
  /\ map fst (catalog segment_sec segs) = segs
  /\ map snd (catalog segment_sec segs)
     = map (fun i => (inject_Z (Z.of_nat i) * inject_Z segment_sec)%Q)
           (seq 0 (List.length segs))
  /\ snd (main_loop segment_sec transcribe segs)
     = List.concat
         (map (fun po => match subwords (transcribe (fst po)) with
                         | Some sws => build_srt_default sws (snd po)
                         | None => []
                         end)
              (catalog segment_sec segs))
  /\ (forall pre run post : pystr,
        stem p = pre ++ run ++ post ->
        forallb (fun c => negb (isdecimal c)) pre = true ->
        run <> [] ->
        Forall (fun c => isdecimal c = true) run ->
        take_digits post = [] ->
        fst (natural_sort_key p) = int_of_decimals run)
  /\ (forall (w : nat) (n : Z), 0 <= n -> int_of_decimals (fmt_d w n) = n)
  /\ (forall q : Path,
        fst (natural_sort_key p) < fst (natural_sort_key q) ->
        key_le p q /\ ~ key_le q p)
  /\ map natural_sort_key example_listing
     = [(3, lit "seg_000003.wav"); (1, lit "seg_000001.wav");
        (2, lit "seg_000002.wav")]
  /\ natural_sort_key (lit "seg_" ++ [65297; 65298] ++ lit ".wav")
     = (12, lit "seg_" ++ [65297; 65298] ++ lit ".wav")
  /\ natural_sort_key (lit "seg_.wav") = (-1, lit "seg_.wav")
  /\ segment_audio_from_video example_listing
     = Some [lit "seg_000001.wav"; lit "seg_000002.wav"; lit "seg_000003.wav"]
  /\ catalog 25
       [lit "seg_000001.wav"; lit "seg_000002.wav"; lit "seg_000003.wav"]
     = [(lit "seg_000001.wav", 0%Q); (lit "seg_000002.wav", 25%Q);
        (lit "seg_000003.wav", 50%Q)]
  /\ option_map (catalog 25)
       (segment_audio_from_video [lit "seg_000007.wav"; lit "seg_000004.wav"])
     = Some [(lit "seg_000004.wav", 0%Q); (lit "seg_000007.wav", 25%Q)].
Proof.
  split; [apply sorted_by_key_perm|].
  split; [apply sorted_by_key_sorted|].
  split.
  { unfold segment_audio_from_video. now rewrite sorted_by_key_truthy. }
  split; [apply natural_sort_key_number|].
  split; [apply natural_sort_key_number|].
  split; [reflexivity|].
  split; [apply natural_sort_key_seg_wav|].
  split; [apply catalog_fst|].
  split; [apply catalog_snd|].
  split.
  { rewrite main_loop_entries. unfold catalog. now rewrite map_map. }
  split.
  { intros pre run post Es Hpre Hne Hrun Hpost.
    unfold natural_sort_key. cbn [fst].
    now rewrite Es, (first_digit_run_found pre run post). }
  split.
  { intros w n Hn. destruct (fmt_d_spec w n Hn) as (Hd & Hv & _).
    now rewrite int_of_decimals_digits. }
  split.
  { intros q Hq. unfold key_le. split; [now left | lia]. }
  repeat split; vm_compute; reflexivity.
Qed.

Lemma segment_catalog_witness :
  first_digit_run (stem (lit "seg_000001.wav"))
  = first_digit_run (lit "seg_000001.wav")
  /\ fst (natural_sort_key (lit "seg_000001.wav"))
     = int_of_decimals (lit "000001")
  /\ int_of_decimals (fmt_d 6 1) = 1
  /\ key_le (lit "seg_000001.wav") (lit "seg_000002.wav")
  /\ ~ key_le (lit "seg_000002.wav") (lit "seg_000001.wav").
Proof.
  destruct (segment_catalog [] [] 25 two_tokens (lit "seg_000001.wav"))
    as (_ & _ & _ & _ & _ & _ & H & _ & _ & _ & Hk & Hn & Ho & _).
  split; [apply H; reflexivity|].
  split.
  { apply (Hk (lit "seg_") (lit "000001") []);
      [reflexivity | reflexivity | discriminate | | reflexivity].
    repeat constructor. }
  split; [apply Hn; lia|].
  apply (Ho (lit "seg_000002.wav")). reflexivity.
Defined.

(** ** The subtitle file *)

Lemma srt_lines_fold (ents : list (Z * Entry)) (lines : list pystr) :
  fold_left srt_step ents lines
  = lines ++ List.concat
               (map srt_block
                    (filter (fun it => truthy (entry_text (snd it))) ents)).
Proof.
  revert lines. induction ents as [|[idx [[st ed] txt]] ents IH];
    intros lines; simpl.
  - now rewrite app_nil_r.
  - rewrite IH. unfold entry_text at 2. cbn [snd].
    destruct (truthy txt); cbn [negb]; [|reflexivity].
    cbn [map List.concat]. now rewrite <- app_assoc.
Qed.

Lemma block_numbers_blocks (its : list (Z * Entry)) :
  block_numbers (List.concat (map srt_block its))
  = map (fun it => str_int (fst it)) its.
Proof.
  induction its as [|it its IH]; [reflexivity|].
  cbn [map List.concat]. unfold srt_block at 1. cbn [app block_numbers].
  now rewrite IH.
Qed.

(** The number of a block is the 1-based position of its entry among all
    the entries, the dropped ones included. *)
Lemma srt_numbers_are_positions (srt_entries : list Entry) :
  block_numbers (srt_lines srt_entries)
  = map (fun it => str_int (fst it))
        (filter (fun it => truthy (entry_text (snd it)))
                (enumerate 1 srt_entries)).
Proof.
  unfold srt_lines. rewrite srt_lines_fold. cbn [app].
  apply block_numbers_blocks.
Qed.

(** C2 does not hold of the code.  With a first segment whose only token
    is a space and a second one with the token A, the first entry has an
    empty text and is dropped, and the one block that is written carries the
    number 2: the numbers are the positions in the list before the empty
    entries are dropped, so they have a gap. *)
Theorem srt_numbering_skips :
  main 25 blank_then_speech [lit "seg_000000.wav"; lit "seg_000001.wav"]
  = Some (lit "A" ++ newline,
          lit "2" ++ newline ++ lit "00:00:26,000 --> 00:00:26,250"
            ++ newline ++ lit "A" ++ newline)
  /\ snd (main_loop 25 blank_then_speech
            [lit "seg_000000.wav"; lit "seg_000001.wav"])
     = [(0%Q, 1 # 4, []); (26%Q, 105 # 4, lit "A")]
  /\ block_numbers (srt_lines [(0%Q, 1 # 4, []); (26%Q, 105 # 4, lit "A")])
     = [lit "2"].
Proof. repeat split; vm_compute; reflexivity. Qed.


(** ** The worked examples in binary64 *)

(** The sums, differences and products that the evaluations above go
    through are exact in binary64 arithmetic, so the rational model and
    Python's floats agree on them: the token times plus the offsets, the
    elapsed times, the padded ends, the segment offsets and the
    millisecond products. *)
Lemma examples_exact_in_binary64 :
  forallb (exact_in_binary64 PrimFloat.add Qplus)
    [(0, 0); (1, 0); (2, 0); (5, 0); (5, 0.25); (0, 0.25); (1, 25);
     (26, 0.25)]%float = true
  /\ forallb (exact_in_binary64 PrimFloat.sub Qminus)
       [(1, 0); (2, 0); (5, 0)]%float = true
  /\ forallb (exact_in_binary64 PrimFloat.mul Qmult)
       [(0, 25); (1, 25); (0.0625, 1000); (26, 1000); (26.25, 1000);
        (0, 1000); (90000, 1000); (360000, 1000); (359999, 1000)]%float
     = true
  /\ option_map Qred (Q_of_float 0.0625) = Some (1 # 16)
  /\ option_map Qred (Q_of_float 5.25) = Some (21 # 4).
Proof. repeat split; vm_compute; reflexivity. Qed.

(** * Further properties of the scripts *)

(** ** Timestamps *)

Lemma str_cmp_refl (a : pystr) : str_cmp a a = Eq.
Proof.
  induction a as [|x a IH]; cbn [str_cmp]; [reflexivity|].
  now rewrite Z.compare_refl.
Qed.

Lemma str_cmp_eq (a b : pystr) : str_cmp a b = Eq -> a = b.
Proof.
  revert b. induction a as [|x a IH]; intros [|y b]; cbn [str_cmp];
    try discriminate; [reflexivity|].
  destruct (Z.compare_spec x y) as [E|E|E]; try discriminate.
  intros H. subst y. f_equal. now apply IH.
Qed.

Lemma render_ms_injective (t1 t2 : Z) :
  0 <= t1 -> 0 <= t2 -> render_ms t1 = render_ms t2 -> t1 = t2.
Proof.
  intros H1 H2 E. apply Z.compare_eq.
  rewrite <- (render_cmp t1 t2 H1 H2) by now rewrite E.
  rewrite E. apply str_cmp_refl.
Qed.

Lemma py_round_integer (x : Q) (n : Z) : (x == inject_Z n)%Q -> py_round x = n.
Proof.
  intros E. pose proof (py_round_nearest x) as [Hlo Hhi].
  assert (inject_Z (n + -1) < inject_Z (py_round x))%Q.
  { rewrite inject_Z_plus. change (inject_Z (-1)) with (-1)%Q. lra. }
  assert (inject_Z (py_round x) < inject_Z (n + 1))%Q.
  { rewrite inject_Z_plus. change (inject_Z 1) with 1%Q. lra. }
  rewrite <- Zlt_Qlt in *. lia.
Qed.

(** X1.  Two times get the same timestamp exactly when they round to the
    same millisecond: the timestamp determines the millisecond count. *)
Theorem srt_time_injective (a b : Q) :
  srt_time a = srt_time b <-> srt_ms a = srt_ms b.
Proof.
  rewrite !srt_time_render. split.
  - apply render_ms_injective; apply srt_ms_nonneg.
  - now intros ->.
Qed.

(** X2.  A whole number of milliseconds is rendered as it is: for n >= 0
    the time n/1000 s has the millisecond count n, so rendering the time a
    timestamp denotes gives that timestamp again. *)
Theorem srt_time_whole_ms (n : Z) (x : Q) :
  0 <= n ->
  srt_ms (n # 1000) = n
  /\ srt_time (n # 1000) = render_ms n
  /\ srt_time (srt_ms x # 1000) = srt_time x.
Proof.
  assert (E : forall m, 0 <= m -> srt_ms (m # 1000) = m).
  { intros m Hm. destruct (srt_ms_clamp (m # 1000)) as [_ Hpos].
    rewrite Hpos by (unfold Qle; simpl; lia).
    apply py_round_integer. unfold Qeq. simpl. lia. }
  intros Hn. split; [now apply E|]. split.
  - rewrite srt_time_render. now rewrite E.
  - rewrite !srt_time_render. now rewrite E by apply srt_ms_nonneg.
Qed.

Lemma srt_time_whole_ms_witness :
  srt_ms (3661201 # 1000) = 3661201
  /\ srt_time (3661201 # 1000) = render_ms 3661201
  /\ srt_time (srt_ms (36612005 # 10000) # 1000)
     = srt_time (36612005 # 10000).
Proof. apply (srt_time_whole_ms 3661201 (36612005 # 10000)). lia. Defined.

(** X3.  Up to 99 h 59 min 59 s the timestamp has exactly 12 characters;
    from 100 h on it has more, as the hours field grows. *)
Theorem srt_time_width (x : Q) :
  ((x <= 359999)%Q -> List.length (srt_time x) = 12%nat)
  /\ ((360000 <= x)%Q -> (13 <= List.length (srt_time x))%nat).
Proof.
  pose proof (srt_ms_nonneg x) as Hx.
  assert (E : forall m, 0 <= m -> srt_ms (inject_Z m) = m * 1000).
  { intros m Hm. destruct (srt_ms_clamp (inject_Z m)) as [_ Hpos].
    rewrite Hpos by (unfold Qle; simpl; lia).
    apply py_round_integer. unfold Qeq. simpl. lia. }
  rewrite srt_time_render, render_length by exact Hx. split; intros H.
  - pose proof (srt_ms_mono _ _ H) as Hm.
    change 359999%Q with (inject_Z 359999) in Hm. rewrite E in Hm by lia.
    assert (Hh : 0 <= srt_ms x / 3600000 < 10 ^ 2).
    { split; [apply Z.div_pos; lia|].
      apply Z.div_lt_upper_bound; [lia|]. change (10 ^ 2) with 100. lia. }
    pose proof (digits_len_le _ 2 Hh ltac:(lia)).
    pose proof (digits_len_pos (srt_ms x / 3600000)).
    unfold len in *. lia.
  - pose proof (srt_ms_mono _ _ H) as Hm.
    change 360000%Q with (inject_Z 360000) in Hm. rewrite E in Hm by lia.
    assert (Hh : 100 <= srt_ms x / 3600000)
      by (apply Z.div_le_lower_bound; lia).
    destruct (digits_spec (srt_ms x / 3600000) ltac:(lia)) as (_ & _ & Hub & _).
    assert (10 ^ 2 < 10 ^ len (digits (srt_ms x / 3600000)))
      by (change (10 ^ 2) with 100; lia).
    apply Z.pow_lt_mono_r_iff in H0; [|lia|apply len_nonneg].
    unfold len in *. lia.
Qed.

Lemma srt_time_width_witness :
  List.length (srt_time 3661) = 12%nat
  /\ (13 <= List.length (srt_time 360000))%nat.
Proof.
  split.
  - apply (proj1 (srt_time_width 3661)). discriminate.
  - apply (proj2 (srt_time_width 360000)). discriminate.
Defined.

(** ** The segment catalog: any listing order, and ffmpeg's numbering *)

Section CatalogOrder.

Lemma key_le_antisym (p q : Path) : key_le p q -> key_le q p -> p = q.
Proof.
  unfold key_le, str_le. cbn [natural_sort_key fst snd].
  intros [H1|[E1 L1]] [H2|[E2 L2]]; try lia.
  apply str_cmp_eq. rewrite (str_cmp_opp p q) in L2.
  destruct (str_cmp p q); simpl in *; congruence.
Qed.

Lemma filter_perm {A : Type} (f : A -> bool) (l1 l2 : list A) :
  Permutation l1 l2 -> Permutation (filter f l1) (filter f l2).
Proof.
  induction 1 as [|x l1 l2 _ IH|x y l|l1 l2 l3 _ IH1 _ IH2]; simpl.
  - constructor.
  - destruct (f x); [now constructor | exact IH].
  - destruct (f x), (f y); try reflexivity. apply perm_swap.
  - now transitivity (filter f l2).
Qed.

(** A list has one sorted rearrangement only. *)
Lemma sorted_unique (l1 l2 : list Path) :
  StronglySorted key_le l1 -> StronglySorted key_le l2 ->
  Permutation l1 l2 -> l1 = l2.
Proof.
  revert l2. induction l1 as [|x l1 IH]; intros l2 H1 H2 P.
  - apply Permutation_nil in P. now subst.
  - destruct l2 as [|y l2].
    { symmetry in P. apply Permutation_nil in P. discriminate. }
    apply StronglySorted_inv in H1. destruct H1 as [H1 Hx].
    apply StronglySorted_inv in H2. destruct H2 as [H2 Hy].
    rewrite Forall_forall in Hx, Hy.
    assert (E : x = y).
    { assert (Ix : In x (y :: l2))
        by (apply (Permutation_in _ P); now left).
      assert (Iy : In y (x :: l1))
        by (apply (Permutation_in _ (Permutation_sym P)); now left).
      destruct Ix as [Ix|Ix]; [now symmetry|].
      destruct Iy as [Iy|Iy]; [exact Iy|].
      apply key_le_antisym; [now apply Hx | now apply Hy]. }
    subst y. f_equal. apply IH; auto.
    now apply Permutation_cons_inv in P.
Qed.

Lemma startswith_self_app (pre t : pystr) : startswith pre (pre ++ t) = true.
Proof.
  induction pre as [|x pre IH]; [reflexivity|].
  simpl. now rewrite Z.eqb_refl.
Qed.

Lemma take_digits_id (s : pystr) : all_digits s -> take_digits s = s.
Proof.
  induction 1 as [|c s Hc _ IH]; [reflexivity|].
  simpl. now rewrite (isdigit_isdecimal c Hc), IH.
Qed.

Lemma out_pattern_glob (n : Z) : glob_seg_wav (out_pattern n) = true.
Proof.
  unfold glob_seg_wav, out_pattern.
  rewrite startswith_self_app.
  change (skipn 4 (lit "seg_" ++ fmt_d 6 n ++ lit ".wav"))
    with (fmt_d 6 n ++ lit ".wav").
  unfold endswith. rewrite rev_app_distr. apply startswith_self_app.
Qed.

Lemma out_pattern_key (n : Z) :
  0 <= n -> natural_sort_key (out_pattern n) = (n, out_pattern n).
Proof.
  intros Hn. unfold natural_sort_key. f_equal.
  destruct (stem_seg_wav _ (out_pattern_glob n)) as (mid & E & _).
  assert (Es : stem (out_pattern n) = lit "seg_" ++ fmt_d 6 n).
  { apply (app_inv_tail (lit ".wav")). rewrite <- E.
    unfold out_pattern. now rewrite <- app_assoc. }
  rewrite Es.
  destruct (fmt_d_spec 6 n Hn) as (Hd & Hv & Hl & _).
  destruct (fmt_d 6 n) as [|c ds] eqn:Ef; [cbn [List.length] in Hl; lia|].
  apply Forall_cons_iff in Hd. destruct Hd as [Hc Hds].
  change (first_digit_run (lit "seg_" ++ c :: ds))
    with (first_digit_run (c :: ds)).
  cbn [first_digit_run].
  rewrite (isdigit_isdecimal c Hc), take_digits_id by exact Hds.
  rewrite int_of_decimals_digits by (constructor; assumption).
  exact Hv.
Qed.

Lemma out_pattern_key_le (n m : Z) :
  0 <= n < m -> key_le (out_pattern n) (out_pattern m).
Proof.
  intros H. unfold key_le. rewrite !out_pattern_key by lia. left. simpl. lia.
Qed.

Lemma out_patterns_sorted (a k : nat) :
  StronglySorted key_le (map out_pattern (map Z.of_nat (seq a k))).
Proof.
  revert a. induction k as [|k IH]; intros a; simpl; constructor.
  - apply IH.
  - apply Forall_forall. intros p Hp. rewrite map_map in Hp.
    apply in_map_iff in Hp. destruct Hp as (j & <- & Hj).
    apply in_seq in Hj. apply out_pattern_key_le. lia.
Qed.

Lemma out_patterns_glob (l : list Z) :
  filter glob_seg_wav (map out_pattern l) = map out_pattern l.
Proof.
  induction l as [|n l IH]; [reflexivity|].
  simpl. now rewrite out_pattern_glob, IH.
Qed.

Lemma catalog_map_seq (segment_sec : Z) (f : nat -> Path) (k : nat) :
  catalog segment_sec (map f (seq 0 k))
  = map (fun i => (f i, segment_offset_of segment_sec (Z.of_nat i))) (seq 0 k).
Proof.
  unfold catalog. change 0 with (Z.of_nat 0) at 1. generalize 0%nat.
  induction k as [|k IH]; intros a; simpl; [reflexivity|].
  f_equal. replace (Z.of_nat a + 1) with (Z.of_nat (S a)) by lia. apply IH.
Qed.

End CatalogOrder.

(** X4.  The result does not depend on the order in which the directory is
    listed: two listings of the same files give the same segment list. *)
Theorem listing_order_irrelevant (l1 l2 : list Path) :
  Permutation l1 l2 ->
  segment_audio_from_video l1 = segment_audio_from_video l2.
Proof.
  intros P. unfold segment_audio_from_video.
  assert (E : sorted_by_key (filter glob_seg_wav l1)
              = sorted_by_key (filter glob_seg_wav l2)).
  { apply sorted_unique; try apply sorted_by_key_sorted.
    rewrite !sorted_by_key_perm. now apply filter_perm. }
  now rewrite E.
Qed.

Lemma listing_order_irrelevant_witness :
  segment_audio_from_video example_listing
  = segment_audio_from_video (rev example_listing).
Proof.
  apply (listing_order_irrelevant example_listing (rev example_listing)).
  apply Permutation_rev.
Defined.

(** X5.  The file ffmpeg writes for segment number n under the pattern
    seg_%06d.wav is picked up by the glob and sorts by n, also past six
    digits: a later segment never sorts before an earlier one, although
    seg_1000000.wav comes before seg_999999.wav in dictionary order. *)
Theorem out_pattern_sorts_by_number (n m : Z) :
  0 <= n < m ->
  glob_seg_wav (out_pattern n) = true
  /\ natural_sort_key (out_pattern n) = (n, out_pattern n)
  /\ key_le (out_pattern n) (out_pattern m)
  /\ ~ key_le (out_pattern m) (out_pattern n)
  /\ str_cmp (out_pattern 1000000) (out_pattern 999999) = Lt.
Proof.
  intros H. split; [apply out_pattern_glob|].
  split; [apply out_pattern_key; lia|].
  split; [now apply out_pattern_key_le|].
  split; [|reflexivity].
  unfold key_le. rewrite !out_pattern_key by lia. simpl. lia.
Qed.

Lemma out_pattern_sorts_by_number_witness :
  glob_seg_wav (out_pattern 999999) = true
  /\ natural_sort_key (out_pattern 999999) = (999999, out_pattern 999999)
  /\ key_le (out_pattern 999999) (out_pattern 1000000)
  /\ ~ key_le (out_pattern 1000000) (out_pattern 999999)
  /\ str_cmp (out_pattern 1000000) (out_pattern 999999) = Lt.
Proof. apply (out_pattern_sorts_by_number 999999 1000000). lia. Defined.

(** X6.  When the directory holds the files ffmpeg numbered 0 to k-1, in
    any order, the segments come out in the order of their numbers, and the
    offset of segment number i is i times the segment duration. *)
Theorem ffmpeg_numbering (k : nat) (listing : list Path) (segment_sec : Z) :
  (0 < k)%nat ->
  Permutation listing (map out_pattern (map Z.of_nat (seq 0 k))) ->
  segment_audio_from_video listing
    = Some (map out_pattern (map Z.of_nat (seq 0 k)))
  /\ option_map (catalog segment_sec) (segment_audio_from_video listing)
     = Some (map (fun i => (out_pattern (Z.of_nat i),
                            (inject_Z (Z.of_nat i) * inject_Z segment_sec)%Q))
                 (seq 0 k)).
Proof.
  intros Hk P.
  assert (E : segment_audio_from_video listing
              = Some (map out_pattern (map Z.of_nat (seq 0 k)))).
  { unfold segment_audio_from_video.
    assert (Es : sorted_by_key (filter glob_seg_wav listing)
                 = map out_pattern (map Z.of_nat (seq 0 k))).
    { apply sorted_unique;
        [apply sorted_by_key_sorted | apply out_patterns_sorted |].
      rewrite sorted_by_key_perm, (filter_perm _ _ _ P).
      now rewrite out_patterns_glob. }
    rewrite Es. destruct k; [lia | reflexivity]. }
  split; [exact E|]. rewrite E. cbn [option_map]. f_equal.
  rewrite map_map. apply catalog_map_seq.
Qed.

Lemma ffmpeg_numbering_witness :
  segment_audio_from_video [out_pattern 1; out_pattern 2; out_pattern 0]
    = Some (map out_pattern (map Z.of_nat (seq 0 3)))
  /\ option_map (catalog 25)
       (segment_audio_from_video [out_pattern 1; out_pattern 2; out_pattern 0])
     = Some (map (fun i => (out_pattern (Z.of_nat i),
                            (inject_Z (Z.of_nat i) * inject_Z 25)%Q))
                 (seq 0 3)).
Proof.
  apply (ffmpeg_numbering 3 [out_pattern 1; out_pattern 2; out_pattern 0] 25).
  - lia.
  - change (map out_pattern (map Z.of_nat (seq 0 3)))
      with [out_pattern 0; out_pattern 1; out_pattern 2].
    apply Permutation_sym.
    apply (perm_trans (perm_swap _ _ _)). apply perm_skip. apply perm_swap.
Defined.

(** ** The caption assembler: where the captions end *)

Section Greedy.

Variables (off mx : Q) (mc : Z) (pad : Q).

Lemma flush_due_snoc (first : Subword) (rest : list Subword) (s : Subword) :
  flush_due off mx mc ((first :: rest) ++ [s])
  = Qle_bool mx (seconds s + off - (seconds first + off))
    || (mc <=? len (tokens_to_text (map token ((first :: rest) ++ [s])))).
Proof.
  unfold flush_due.
  change ((first :: rest) ++ [s]) with (first :: (rest ++ [s])) at 1.
  cbv iota. now rewrite last_last.
Qed.

Lemma firstn_snoc_le {A : Type} (l : list A) (x : A) (k : nat) :
  (k <= List.length l)%nat -> firstn k (l ++ [x]) = firstn k l.
Proof.
  intros H. rewrite firstn_app.
  replace (k - List.length l)%nat with 0%nat by lia.
  cbn [firstn]. apply app_nil_r.
Qed.

Lemma no_flush_snoc (cur : list Subword) (s : Subword) :
  no_flush_upto off mx mc cur (List.length cur) ->
  no_flush_upto off mx mc (cur ++ [s]) (List.length cur).
Proof.
  intros H k Hk. rewrite firstn_snoc_le by lia. now apply H.
Qed.

Lemma asm_inv_greedy_init : asm_inv_greedy off mx mc pad [] asm_init.
Proof.
  exists [], []. simpl. repeat split; try constructor.
  intros k Hk. simpl in Hk. lia.
Qed.

Lemma asm_inv_greedy_step (done : list Subword) (st : AsmState)
    (s : Subword) :
  asm_inv_greedy off mx mc pad done st ->
  asm_inv_greedy off mx mc pad (done ++ [s]) (asm_step off mx mc pad st s).
Proof.
  intros (bufs & cur & Hd & Hb & He & Ht & Hn & Hc).
  unfold asm_step. destruct cur as [|first rest].
  - destruct Hc as [Hs _]. rewrite Hs.
    exists bufs, [s]. simpl. rewrite Hd, app_nil_r.
    repeat split; auto. intros k Hk. lia.
  - destruct Hc as [Hs _]. rewrite Hs, Ht.
    replace (map token (first :: rest) ++ [token s])
      with (map token ((first :: rest) ++ [s]))
      by (rewrite map_app; reflexivity).
    rewrite <- flush_due_snoc.
    destruct (flush_due off mx mc ((first :: rest) ++ [s])) eqn:Ef.
    + exists (bufs ++ [(first :: rest) ++ [s]]), [].
      cbn [entries cur_tokens cur_start cur_last].
      split; [|split; [|split; [|repeat split]]].
      * rewrite Hd, concat_app. cbn [List.concat].
        now rewrite !app_nil_r, <- app_assoc.
      * apply Forall_app. split; [exact Hb|]. constructor; [|constructor].
        rewrite length_app. cbn [List.length].
        split; [lia|]. split; [exact Ef|].
        replace (S (List.length rest) + 1 - 1)%nat
          with (List.length (first :: rest)) by (cbn [List.length]; lia).
        now apply no_flush_snoc.
      * rewrite He, (map_app (entry_of_buffer off pad)). cbn [map].
        now rewrite entry_of_buffer_snoc.
      * intros k Hk. simpl in Hk. lia.
    + exists bufs, ((first :: rest) ++ [s]).
      cbn [entries cur_tokens cur_start cur_last].
      split; [|split; [|split; [|split; [|split]]]]; auto.
      * now rewrite Hd, <- app_assoc.
      * intros k Hk. rewrite length_app in Hk. cbn [List.length] in Hk.
        destruct (Nat.eq_dec k (S (List.length rest) + 1)) as [->|Hne].
        -- replace (S (List.length rest) + 1)%nat
             with (List.length ((first :: rest) ++ [s]))
             by (rewrite length_app; reflexivity).
           now rewrite firstn_all.
        -- apply (no_flush_snoc _ s Hn). cbn [List.length]. lia.
      * change ((first :: rest) ++ [s]) with (first :: (rest ++ [s])) at 1.
        cbv iota. split; [reflexivity|].
        change (first :: (rest ++ [s])) with ((first :: rest) ++ [s]).
        now rewrite last_last.
Qed.

Lemma asm_inv_greedy_fold (sws done : list Subword) (st : AsmState) :
  asm_inv_greedy off mx mc pad done st ->
  asm_inv_greedy off mx mc pad (done ++ sws)
    (fold_left (asm_step off mx mc pad) sws st).
Proof.
  revert done st. induction sws as [|s sws IH]; intros done st H; simpl.
  - now rewrite app_nil_r.
  - replace (done ++ s :: sws) with ((done ++ [s]) ++ sws)
      by (rewrite <- app_assoc; reflexivity).
    apply IH, asm_inv_greedy_step, H.
Qed.

(** The buffers of a call: those flushed inside the loop, each on a
    threshold reached with its last subword and not before, and at most one
    more, flushed after the loop, in which no threshold was reached. *)
Lemma build_srt_greedy (sws : list Subword) :
  exists full tail : list (list Subword),
    build_srt_from_subwords sws off mx mc pad
      = map (entry_of_buffer off pad) (full ++ tail)
    /\ List.concat (full ++ tail) = sws
    /\ Forall (fun b => (2 <= List.length b)%nat
                        /\ flush_due off mx mc b = true
                        /\ no_flush_upto off mx mc b (List.length b - 1)) full
    /\ (tail = []
        \/ exists cur, tail = [cur] /\ cur <> []
                       /\ no_flush_upto off mx mc cur (List.length cur)).
Proof.
  unfold build_srt_from_subwords. destruct sws as [|s0 sws'].
  - exists [], []. simpl. repeat split; auto.
  - set (sws := s0 :: sws'). simpl truthy. cbv iota.
    destruct (asm_inv_greedy_fold sws [] asm_init asm_inv_greedy_init)
      as (bufs & cur & Hd & Hb & He & Ht & Hn & Hc).
    simpl app in Hd. rewrite Ht, He.
    destruct cur as [|first rest].
    + exists bufs, []. simpl. rewrite !app_nil_r in *. auto.
    + destruct Hc as [Hs Hl]. rewrite Hs, Hl. simpl map at 1.
      exists bufs, [first :: rest].
      rewrite concat_app, map_app. simpl. rewrite app_nil_r.
      repeat split; auto.
      right. exists (first :: rest). repeat split; auto. discriminate.
Qed.

Lemma concat_length_twice {A : Type} (ls : list (list A)) :
  Forall (fun b => (2 <= List.length b)%nat) ls ->
  (2 * List.length ls <= List.length (List.concat ls))%nat.
Proof.
  induction 1 as [|b ls Hb _ IH]; simpl; [lia|].
  rewrite length_app. lia.
Qed.

End Greedy.

(** X8.  A call on n subwords returns at most (n + 1) / 2 entries: every
    entry but the last takes at least two subwords. *)
Theorem build_srt_entry_count (sws : list Subword) (off mx : Q) (mc : Z)
    (pad : Q) :
  (2 * List.length (build_srt_from_subwords sws off mx mc pad)
   <= List.length sws + 1)%nat.
Proof.
  destruct (build_srt_greedy off mx mc pad sws)
    as (full & tail & -> & Hc & Hf & Ht).
  rewrite length_map, <- Hc, concat_app, !length_app.
  assert (H2 : (2 * List.length full <= List.length (List.concat full))%nat).
  { apply concat_length_twice. eapply Forall_impl; [|exact Hf].
    cbv beta. tauto. }
  destruct Ht as [->|(cur & -> & Hne & _)]; simpl; [lia|].
  destruct cur; [congruence|]. simpl. lia.
Qed.

Section Lengths.

Lemma lstrip_length (s : pystr) : (List.length (lstrip s) <= List.length s)%nat.
Proof.
  induction s as [|c s IH]; simpl; [lia|].
  destruct (isspace c); simpl; lia.
Qed.

Lemma strip_length (s : pystr) : len (strip s) <= len s.
Proof.
  unfold len, strip, rstrip. rewrite length_rev.
  pose proof (lstrip_length (rev (lstrip s))) as H1.
  rewrite length_rev in H1. pose proof (lstrip_length s). lia.
Qed.

Lemma concat_prefix_length {A : Type} (ls : list (list A)) (k : nat) :
  (List.length (List.concat (firstn k ls)) <= List.length (List.concat ls))%nat.
Proof.
  rewrite <- (firstn_skipn k ls) at 2. rewrite concat_app, length_app. lia.
Qed.

Lemma last_in_nonempty {A : Type} (l : list A) (d : A) :
  l <> [] -> In (last l d) l.
Proof.
  induction l as [|x l IH]; [congruence|]. intros _.
  destruct l as [|y l]; [now left|].
  right. apply IH. discriminate.
Qed.

End Lengths.

(** ** The caption assembler in binary64: where the captions end *)

Section Greedy64.

Variables (off mx : float) (mc : Z) (pad : float).

Lemma entry_of_buffer64_snoc (first : Subword64) (rest : list Subword64)
    (s : Subword64) :
  entry_of_buffer64 off pad ((first :: rest) ++ [s])
  = ((seconds64 first + off)%float, (seconds64 s + off + pad)%float,
     tokens_to_text (map token64 ((first :: rest) ++ [s]))).
Proof.
  unfold entry_of_buffer64.
  change ((first :: rest) ++ [s]) with (first :: (rest ++ [s])) at 1.
  cbv iota. now rewrite last_last.
Qed.

Lemma flush_due64_snoc (first : Subword64) (rest : list Subword64)
    (s : Subword64) :
  flush_due64 off mx mc ((first :: rest) ++ [s])
  = (mx <=? seconds64 s + off - (seconds64 first + off))%float
    || (mc <=? len (tokens_to_text (map token64 ((first :: rest) ++ [s])))).
Proof.
  unfold flush_due64.
  change ((first :: rest) ++ [s]) with (first :: (rest ++ [s])) at 1.
  cbv iota. now rewrite last_last.
Qed.

Lemma no_flush64_snoc (cur : list Subword64) (s : Subword64) :
  no_flush_upto64 off mx mc cur (List.length cur) ->
  no_flush_upto64 off mx mc (cur ++ [s]) (List.length cur).
Proof.
  intros H k Hk. rewrite firstn_snoc_le by lia. now apply H.
Qed.

Lemma asm_inv64_init : asm_inv64 off mx mc pad [] asm_init64.
Proof.
  exists [], []. simpl. repeat split; try constructor.
  intros k Hk. simpl in Hk. lia.
Qed.

Lemma asm_inv64_step (done : list Subword64) (st : AsmState64)
    (s : Subword64) :
  asm_inv64 off mx mc pad done st ->
  asm_inv64 off mx mc pad (done ++ [s]) (asm_step64 off mx mc pad st s).
Proof.
  intros (bufs & cur & Hd & Hb & He & Ht & Hn & Hc).
  unfold asm_step64. destruct cur as [|first rest].
  - destruct Hc as [Hs _]. rewrite Hs.
    exists bufs, [s]. simpl. rewrite Hd, app_nil_r.
    repeat split; auto. intros k Hk. lia.
  - destruct Hc as [Hs _]. rewrite Hs, Ht.
    replace (map token64 (first :: rest) ++ [token64 s])
      with (map token64 ((first :: rest) ++ [s]))
      by (rewrite map_app; reflexivity).
    rewrite <- flush_due64_snoc.
    destruct (flush_due64 off mx mc ((first :: rest) ++ [s])) eqn:Ef.
    + exists (bufs ++ [(first :: rest) ++ [s]]), [].
      cbn [entries64 cur_tokens64 cur_start64 cur_last64].
      split; [|split; [|split; [|repeat split]]].
      * rewrite Hd, concat_app. cbn [List.concat].
        now rewrite !app_nil_r, <- app_assoc.
      * apply Forall_app. split; [exact Hb|]. constructor; [|constructor].
        rewrite length_app. cbn [List.length].
        split; [lia|]. split; [exact Ef|].
        replace (S (List.length rest) + 1 - 1)%nat
          with (List.length (first :: rest)) by (cbn [List.length]; lia).
        now apply no_flush64_snoc.
      * rewrite He, (map_app (entry_of_buffer64 off pad)). cbn [map].
        now rewrite entry_of_buffer64_snoc.
      * intros k Hk. simpl in Hk. lia.
    + exists bufs, ((first :: rest) ++ [s]).
      cbn [entries64 cur_tokens64 cur_start64 cur_last64].
      split; [|split; [|split; [|split; [|split]]]]; auto.
      * now rewrite Hd, <- app_assoc.
      * intros k Hk. rewrite length_app in Hk. cbn [List.length] in Hk.
        destruct (Nat.eq_dec k (S (List.length rest) + 1)) as [->|Hne].
        -- replace (S (List.length rest) + 1)%nat
             with (List.length ((first :: rest) ++ [s]))
             by (rewrite length_app; reflexivity).
           now rewrite firstn_all.
        -- apply (no_flush64_snoc _ s Hn). cbn [List.length]. lia.
      * change ((first :: rest) ++ [s]) with (first :: (rest ++ [s])) at 1.
        cbv iota. split; [reflexivity|].
        change (first :: (rest ++ [s])) with ((first :: rest) ++ [s]).
        now rewrite last_last.
Qed.

Lemma asm_inv64_fold (sws done : list Subword64) (st : AsmState64) :
  asm_inv64 off mx mc pad done st ->
  asm_inv64 off mx mc pad (done ++ sws)
    (fold_left (asm_step64 off mx mc pad) sws st).
Proof.
  revert done st. induction sws as [|s sws IH]; intros done st H; simpl.
  - now rewrite app_nil_r.
  - replace (done ++ s :: sws) with ((done ++ [s]) ++ sws)
      by (rewrite <- app_assoc; reflexivity).
    apply IH, asm_inv64_step, H.
Qed.

Lemma build_srt64_greedy (sws : list Subword64) :
  exists full tail : list (list Subword64),
    build_srt_from_subwords64 sws off mx mc pad
      = map (entry_of_buffer64 off pad) (full ++ tail)
    /\ List.concat (full ++ tail) = sws
    /\ Forall (fun b => (2 <= List.length b)%nat
                        /\ flush_due64 off mx mc b = true
                        /\ no_flush_upto64 off mx mc b (List.length b - 1))
         full
    /\ (tail = []
        \/ exists cur, tail = [cur] /\ cur <> []
                       /\ no_flush_upto64 off mx mc cur (List.length cur)).
Proof.
  unfold build_srt_from_subwords64. destruct sws as [|s0 sws'].
  - exists [], []. simpl. repeat split; auto.
  - set (sws := s0 :: sws'). simpl truthy. cbv iota.
    destruct (asm_inv64_fold sws [] asm_init64 asm_inv64_init)
      as (bufs & cur & Hd & Hb & He & Ht & Hn & Hc).
    simpl app in Hd. rewrite Ht, He.
    destruct cur as [|first rest].
    + exists bufs, []. simpl. rewrite !app_nil_r in *. auto.
    + destruct Hc as [Hs Hl]. rewrite Hs, Hl. simpl map at 1.
      exists bufs, [first :: rest].
      rewrite concat_app, map_app. simpl. rewrite app_nil_r.
      repeat split; auto.
      right. exists (first :: rest). repeat split; auto. discriminate.
Qed.

Lemma build_srt64_no_flush (sws : list Subword64) :
  sws <> [] ->
  no_flush_upto64 off mx mc sws (List.length sws) ->
  build_srt_from_subwords64 sws off mx mc pad
  = [entry_of_buffer64 off pad sws].
Proof.
  intros Hne Hn.
  destruct (build_srt64_greedy sws) as (full & tail & -> & Hc & Hf & Ht).
  destruct full as [|b full].
  - destruct Ht as [->|(cur & -> & _)].
    + simpl in Hc. congruence.
    + simpl in Hc. rewrite app_nil_r in Hc. now subst cur.
  - exfalso. apply Forall_inv in Hf. destruct Hf as (Hl & Hd & _).
    simpl in Hc.
    assert (Eb : firstn (List.length b) sws = b).
    { rewrite <- Hc, firstn_app, firstn_all, Nat.sub_diag. cbn [firstn].
      apply app_nil_r. }
    assert (Hlen : (List.length b <= List.length sws)%nat).
    { rewrite <- Hc, length_app. lia. }
    rewrite <- Eb, (Hn (List.length b)) in Hd by lia. discriminate.
Qed.

End Greedy64.

(** X7.  A caption ends only on a threshold, the tests being those the loop
    makes in binary64: every buffer but the last of a call has at least two
    subwords and meets the duration or the length threshold with its last
    subword, and no buffer meets one before its last subword (the very
    first subword of a buffer is never tested).  The last buffer may be the
    one left open at the end of the input.  So the subwords at 0.3, 4.3 and
    4.4 s give the captions AB and C: in binary64 4.3 - 0.3 is 4.0. *)
Theorem build_srt64_ends_on_threshold (sws : list Subword64)
    (off mx : float) (mc : Z) (pad : float) :
  (exists full tail : list (list Subword64),
     build_srt_from_subwords64 sws off mx mc pad
       = map (entry_of_buffer64 off pad) (full ++ tail)
     /\ List.concat (full ++ tail) = sws
     /\ (List.length tail <= 1)%nat
     /\ Forall (fun b => (2 <= List.length b)%nat
                         /\ flush_due64 off mx mc b = true) full
     /\ Forall (fun b => forall k : nat,
                  (2 <= k < List.length b)%nat ->
                  flush_due64 off mx mc (firstn k b) = false) (full ++ tail)
     /\ Forall (fun b => b <> []
                         /\ ((2 <= List.length b)%nat ->
                             flush_due64 off mx mc b = false)) tail)
  /\ build_srt_from_subwords64
       [subword64 0.3 "A"; subword64 4.3 "B"; subword64 4.4 "C"] 0 4 26 0.25
     = [((0.3 + 0)%float, (4.3 + 0 + 0.25)%float, lit "AB");
        ((4.4 + 0)%float, (4.4 + 0 + 0.25)%float, lit "C")].
Proof.
  split; [|vm_compute; reflexivity].
  destruct (build_srt64_greedy off mx mc pad sws)
    as (full & tail & E & Hc & Hf & Ht).
  exists full, tail. split; [exact E|]. split; [exact Hc|].
  split; [destruct Ht as [->|(cur & -> & _)]; simpl; lia|].
  split; [|split].
  - eapply Forall_impl; [|exact Hf]. cbv beta. tauto.
  - apply Forall_app. split.
    + eapply Forall_impl; [|exact Hf]. cbv beta.
      intros b (_ & _ & Hn) k Hk. apply Hn. lia.
    + destruct Ht as [->|(cur & -> & _ & Hn)]; constructor; [|constructor].
      intros k Hk. apply Hn. lia.
  - destruct Ht as [->|(cur & -> & Hne & Hn)]; constructor; [|constructor].
    split; [exact Hne|]. intros Hl.
    rewrite <- (firstn_all cur). apply Hn. lia.
Qed.

(** X9.  Subwords that stay below both thresholds make one caption: when
    for every subword after the first the time elapsed since the first, as
    the loop computes it in binary64, is below max_line_sec, and all the
    tokens together have fewer than max_chars characters, the result is the
    single entry from the first subword to the last plus the padding, with
    the trimmed concatenation of all tokens.  The subwords at 0.3, 4.3 and
    4.3 s do not qualify, since 4.3 - 0.3 is 4.0 in binary64, and give two
    captions. *)
Theorem build_srt64_single_caption (first : Subword64)
    (rest : list Subword64) (off mx : float) (mc : Z) (pad : float) :
  Forall (fun s => (mx <=? seconds64 s + off - (seconds64 first + off))%float
                   = false) rest ->
  len (join [] (map token64 (first :: rest))) < mc ->
  build_srt_from_subwords64 (first :: rest) off mx mc pad
  = [((seconds64 first + off)%float,
      (seconds64 (last (first :: rest) first) + off + pad)%float,
      strip (join [] (map token64 (first :: rest))))]
  /\ build_srt_from_subwords64
       [subword64 0.3 "A"; subword64 4.3 "B"; subword64 4.3 "C"] 0 4 26 0.25
     = [((0.3 + 0)%float, (4.3 + 0 + 0.25)%float, lit "AB");
        ((4.3 + 0)%float, (4.3 + 0 + 0.25)%float, lit "C")].
Proof.
  intros Ht Hc. split; [|vm_compute; reflexivity].
  rewrite build_srt64_no_flush; [reflexivity | discriminate |].
  intros k Hk. set (sws := first :: rest) in *.
  destruct k as [|k]; [lia|]. unfold sws at 1. cbn [firstn].
  unfold flush_due64. apply orb_false_iff. split.
  - assert (Hne : firstn k rest <> []).
    { destruct k; [lia|]. destruct rest; [simpl in Hk; lia | discriminate]. }
    assert (El : last (first :: firstn k rest) first
                 = last (firstn k rest) first).
    { destruct (firstn k rest); [congruence | reflexivity]. }
    rewrite El. rewrite Forall_forall in Ht. apply Ht.
    pose proof (last_in_nonempty (firstn k rest) first Hne) as Hin.
    revert Hin. generalize (last (firstn k rest) first). intros x Hx.
    rewrite <- (firstn_skipn k rest). apply in_or_app. now left.
  - apply Z.leb_gt. unfold tokens_to_text.
    change (first :: firstn k rest) with (firstn (S k) sws).
    pose proof (strip_length (join [] (map token64 (firstn (S k) sws)))) as H1.
    assert (H2 : len (join [] (map token64 (firstn (S k) sws)))
                 <= len (join [] (map token64 sws))).
    { rewrite !join_nil_concat, <- firstn_map. unfold len.
      apply Nat2Z.inj_le.
      exact (concat_prefix_length (map token64 sws) (S k)). }
    lia.
Qed.

Lemma build_srt64_single_caption_witness :
  build_srt_from_subwords64
    (subword64 0 "A" :: [subword64 1 "B"; subword64 2 "C"]) 0 4 26 0.25
  = [((seconds64 (subword64 0 "A") + 0)%float,
      (seconds64 (last (subword64 0 "A"
                          :: [subword64 1 "B"; subword64 2 "C"])
                    (subword64 0 "A")) + 0 + 0.25)%float,
      strip (join [] (map token64
                        (subword64 0 "A"
                           :: [subword64 1 "B"; subword64 2 "C"]))))]
  /\ build_srt_from_subwords64
       [subword64 0.3 "A"; subword64 4.3 "B"; subword64 4.3 "C"] 0 4 26 0.25
     = [((0.3 + 0)%float, (4.3 + 0 + 0.25)%float, lit "AB");
        ((4.3 + 0)%float, (4.3 + 0 + 0.25)%float, lit "C")].
Proof.
  apply (build_srt64_single_caption (subword64 0 "A")
           [subword64 1 "B"; subword64 2 "C"] 0 4 26 0.25).
  - repeat constructor.
  - reflexivity.
Defined.


(** ** The two files *)

Section Files.

Lemma lstrip_fixed_app (s t : pystr) :
  s <> [] -> lstrip s = s -> lstrip (s ++ t) = s ++ t.
Proof.
  intros Hne H. destruct s as [|c s]; [congruence|].
  pose proof (lstrip_head _ _ _ H) as Hc. simpl. now rewrite Hc.
Qed.

Lemma rstrip_fixed_app (s t : pystr) :
  t <> [] -> rstrip t = t -> rstrip (s ++ t) = s ++ t.
Proof.
  intros Hne H. unfold rstrip in *.
  apply (f_equal (@rev Z)) in H. rewrite rev_involutive in H.
  rewrite rev_app_distr, lstrip_fixed_app, <- rev_app_distr, rev_involutive;
    auto.
  intros E. apply (f_equal (@rev Z)) in E. rewrite rev_involutive in E.
  now apply Hne.
Qed.

Lemma strip_fixed (s : pystr) : lstrip s = s -> rstrip s = s -> strip s = s.
Proof. intros H1 H2. unfold strip. now rewrite H1. Qed.

Lemma strip_newline_after (s : pystr) :
  s <> [] -> lstrip s = s -> rstrip s = s -> strip (s ++ newline) = s.
Proof.
  intros Hne H1 H2. unfold strip. rewrite lstrip_fixed_app by assumption.
  unfold rstrip. rewrite rev_app_distr. cbn [newline rev app lstrip].
  change (isspace 10) with true. cbv iota. exact H2.
Qed.

(** Joining trimmed, non-empty strings gives a trimmed string. *)
Lemma join_trimmed (sep : pystr) (parts : list pystr) :
  Forall (fun s => s <> [] /\ lstrip s = s /\ rstrip s = s) parts ->
  lstrip (join sep parts) = join sep parts
  /\ rstrip (join sep parts) = join sep parts
  /\ (parts <> [] -> join sep parts <> []).
Proof.
  induction 1 as [|s parts (Hne & Hl & Hr) Hp IH]; [now repeat split|].
  destruct parts as [|s2 parts].
  - simpl. repeat split; auto.
  - destruct IH as (IHl & IHr & IHn).
    change (join sep (s :: s2 :: parts))
      with (s ++ sep ++ join sep (s2 :: parts)).
    split; [now apply lstrip_fixed_app|]. split.
    + rewrite !app_assoc. apply rstrip_fixed_app; [|exact IHr].
      apply IHn. discriminate.
    + intros _ E. apply app_eq_nil in E. destruct E as [E _]. now apply Hne.
Qed.

Lemma isdigit_not_space (c : Z) : isdigit c = true -> isspace c = false.
Proof.
  intros H. apply isdigit_range in H. unfold isspace.
  repeat match goal with
         | |- context [?a <=? ?b] => destruct (Z.leb_spec a b)
         | |- context [?a =? ?b] => destruct (Z.eqb_spec a b)
         end; try reflexivity; lia.
Qed.

Lemma str_int_starts (n : Z) (t : pystr) :
  0 <= n -> str_int n <> [] /\ lstrip (str_int n ++ t) = str_int n ++ t.
Proof.
  intros Hn. unfold str_int. destruct (Z.ltb_spec n 0); [lia|].
  pose proof (digits_nonempty n) as Hne.
  destruct (digits_spec n Hn) as (Hd & _).
  split; [exact Hne|].
  destruct (digits n) as [|c ds]; [congruence|].
  apply Forall_inv in Hd. simpl. now rewrite (isdigit_not_space c Hd).
Qed.

Lemma enumerate_ge {A : Type} (l : list A) (k i : Z) (x : A) :
  In (i, x) (enumerate k l) -> k <= i < k + Z.of_nat (List.length l).
Proof.
  revert k. induction l as [|y l IH]; intros k; simpl; [tauto|].
  intros [[= <- _]|H]; [lia|]. apply IH in H. lia.
Qed.

Lemma retained_in (srt_entries : list Entry) (it : Z * Entry) :
  In it (retained srt_entries) ->
  1 <= fst it <= Z.of_nat (List.length srt_entries)
  /\ In (snd it) srt_entries /\ entry_text (snd it) <> [].
Proof.
  unfold retained. rewrite filter_In. intros [Hin Ht].
  destruct it as [i e]. split; [|split].
  - apply enumerate_ge in Hin. simpl. lia.
  - clear Ht. revert Hin. generalize 1. simpl.
    induction srt_entries as [|y l IH]; intros k; simpl; [tauto|].
    intros [[= _ <-]|H]; [now left | right; eapply IH; eassumption].
  - simpl in *. destruct (entry_text e); [discriminate | discriminate].
Qed.

Lemma join_four (sep a b c d : pystr) (rest : list pystr) :
  rest <> [] ->
  join sep (a :: b :: c :: d :: rest)
  = a ++ sep ++ b ++ sep ++ c ++ sep ++ d ++ sep ++ join sep rest.
Proof. destruct rest; [congruence | reflexivity]. Qed.

Lemma join_blocks (its : list (Z * Entry)) :
  its <> [] ->
  join newline (List.concat (map srt_block its))
  = join (newline ++ newline) (map srt_block_text its) ++ newline.
Proof.
  induction its as [|it its IH]; [congruence|]. intros _.
  destruct its as [|it2 its].
  - unfold srt_block, srt_block_text. cbn [map List.concat app join].
    now rewrite !app_nil_r, <- !app_assoc.
  - specialize (IH ltac:(discriminate)).
    change (List.concat (map srt_block (it :: it2 :: its)))
      with (str_int (fst it)
            :: (srt_time (start_sec (snd it)) ++ lit " --> "
                  ++ srt_time (end_sec (snd it)))
            :: entry_text (snd it) :: []
            :: List.concat (map srt_block (it2 :: its))).
    rewrite join_four by discriminate. rewrite IH.
    change (join (newline ++ newline) (map srt_block_text (it :: it2 :: its)))
      with (srt_block_text it ++ (newline ++ newline)
              ++ join (newline ++ newline) (map srt_block_text (it2 :: its))).
    unfold srt_block_text. cbn [app]. now rewrite <- !app_assoc.
Qed.

(** The blocks, joined, have no white space at either end. *)
Lemma blocks_trimmed (its : list (Z * Entry)) :
  Forall (fun it => 0 <= fst it /\ entry_text (snd it) <> []
                    /\ rstrip (entry_text (snd it)) = entry_text (snd it)) its ->
  Forall (fun s => s <> [] /\ lstrip s = s /\ rstrip s = s)
    (map srt_block_text its).
Proof.
  intros H. apply Forall_map. eapply Forall_impl; [|exact H]. cbv beta.
  intros it (Hi & Hne & Hr). unfold srt_block_text.
  destruct (str_int_starts (fst it) (newline
              ++ srt_time (start_sec (snd it)) ++ lit " --> "
              ++ srt_time (end_sec (snd it)) ++ newline
              ++ entry_text (snd it)) Hi) as [Hs Hl].
  split; [|split; [exact Hl|]].
  - intros E. apply app_eq_nil in E. destruct E as [E _]. now apply Hs.
  - rewrite !app_assoc. now apply rstrip_fixed_app.
Qed.

Lemma out_srt_blocks (srt_entries : list Entry) :
  Forall (fun e => rstrip (entry_text e) = entry_text e) srt_entries ->
  out_srt srt_entries
  = join (newline ++ newline) (map srt_block_text (retained srt_entries))
      ++ newline.
Proof.
  intros H. unfold out_srt, srt_lines. rewrite srt_lines_fold. cbn [app].
  fold (retained srt_entries).
  destruct (retained srt_entries) as [|it its] eqn:E; [reflexivity|].
  rewrite join_blocks by discriminate. f_equal.
  assert (Hf : Forall (fun s => s <> [] /\ lstrip s = s /\ rstrip s = s)
                 (map srt_block_text (it :: its))).
  { apply blocks_trimmed. apply Forall_forall. intros x Hx.
    rewrite <- E in Hx. destruct (retained_in _ _ Hx) as (Hi & Hin & Hne).
    rewrite Forall_forall in H. repeat split; auto; lia. }
  destruct (join_trimmed (newline ++ newline) _ Hf) as (Hl & Hr & Hn).
  apply strip_newline_after; auto. apply Hn. discriminate.
Qed.

Lemma build_srt_text_trimmed (sws : list Subword) (off mx : Q) (mc : Z)
    (pad : Q) (e : Entry) :
  In e (build_srt_from_subwords sws off mx mc pad) ->
  rstrip (entry_text e) = entry_text e.
Proof.
  destruct (build_srt_buffers off mx mc pad sws) as (bufs & _ & Hne & ->).
  intros He. apply in_map_iff in He. destruct He as (b & <- & Hb).
  rewrite Forall_forall in Hne. specialize (Hne b Hb).
  destruct b as [|first rest]; [congruence|].
  unfold entry_of_buffer, entry_text, tokens_to_text. cbn [snd].
  apply rstrip_strip.
Qed.

Lemma main_loop_texts_trimmed (segment_sec : Z)
    (transcribe : Path -> TranscribeResult) (segs : list Path) :
  Forall (fun e => rstrip (entry_text e) = entry_text e)
    (snd (main_loop segment_sec transcribe segs)).
Proof.
  rewrite main_loop_entries. apply Forall_forall. intros e He.
  apply in_concat in He. destruct He as (l & Hl & He).
  apply in_map_iff in Hl. destruct Hl as (it & <- & _).
  unfold segment_entries in He.
  destruct (subwords (transcribe (snd it))); [|destruct He].
  eapply build_srt_text_trimmed. exact He.
Qed.

End Files.

Section Numbering.

Lemma decode_str_int (n : Z) : 0 <= n -> decode_dec (str_int n) = Some n.
Proof.
  intros Hn. unfold str_int. destruct (Z.ltb_spec n 0); [lia|].
  destruct (digits_spec n Hn) as (Hd & Hv & _).
  rewrite decode_dec_digits; [congruence | exact Hd | apply digits_nonempty].
Qed.

Lemma enumerate_filter_sorted {A : Type} (f : Z * A -> bool) (l : list A)
    (k : Z) :
  StronglySorted Z.lt (map fst (filter f (enumerate k l))).
Proof.
  revert k. induction l as [|x l IH]; intros k; simpl; [constructor|].
  destruct (f (k, x)); [|apply IH]. simpl. constructor; [apply IH|].
  apply Forall_forall. intros i Hi. apply in_map_iff in Hi.
  destruct Hi as ([j y] & <- & Hj). apply filter_In in Hj.
  destruct Hj as [Hj _]. apply enumerate_ge in Hj. simpl. lia.
Qed.

Lemma retained_length (srt_entries : list Entry) :
  List.length (retained srt_entries)
  = List.length (filter (fun e => truthy (entry_text e)) srt_entries).
Proof.
  unfold retained. generalize 1.
  induction srt_entries as [|e l IH]; intros k; simpl; [reflexivity|].
  destruct (truthy (entry_text e)); simpl; now rewrite IH.
Qed.

Lemma retained_all (srt_entries : list Entry) :
  Forall (fun e => entry_text e <> []) srt_entries ->
  map fst (retained srt_entries)
  = map Z.of_nat (seq 1 (List.length srt_entries)).
Proof.
  intros H. unfold retained. change 1 with (Z.of_nat 1) at 1.
  generalize 1%nat.
  induction H as [|e l He _ IH]; intros k; simpl; [reflexivity|].
  destruct (entry_text e) eqn:E; [congruence|]. simpl. f_equal.
  replace (Z.of_nat k + 1) with (Z.of_nat (S k)) by lia. apply IH.
Qed.

Lemma retained_none (srt_entries : list Entry) :
  Forall (fun e => entry_text e = []) srt_entries ->
  retained srt_entries = [].
Proof.
  intros H. unfold retained. generalize 1.
  induction H as [|e l He _ IH]; intros k; simpl; [reflexivity|].
  rewrite He. simpl. apply IH.
Qed.

End Numbering.

(** X10.  The subtitle file [main] writes is the blocks of the entries with
    a non-empty text, each block being the number, the line with the two
    timestamps and the text, with one empty line between two blocks and
    exactly one newline after the last; with no such entry the file is a
    single newline. *)
Theorem main_subtitle_file (segment_sec : Z)
    (transcribe : Path -> TranscribeResult) (listing segs : list Path) :
  out_srt (snd (main_loop segment_sec transcribe segs))
    = join (newline ++ newline)
        (map srt_block_text
             (retained (snd (main_loop segment_sec transcribe segs))))
      ++ newline
  /\ option_map snd (main segment_sec transcribe listing)
     = option_map
         (fun segs =>
            join (newline ++ newline)
              (map srt_block_text
                   (retained (snd (main_loop segment_sec transcribe segs))))
            ++ newline)
         (segment_audio_from_video listing).
Proof.
  assert (E : forall l, out_srt (snd (main_loop segment_sec transcribe l))
              = join (newline ++ newline)
                  (map srt_block_text
                     (retained (snd (main_loop segment_sec transcribe l))))
                ++ newline).
  { intros l. apply out_srt_blocks, main_loop_texts_trimmed. }
  split; [apply E|].
  unfold main. destruct (segment_audio_from_video listing) as [l|];
    [|reflexivity].
  specialize (E l). cbn [option_map].
  destruct (main_loop segment_sec transcribe l) as [ps es].
  cbn [fst snd option_map] in *. now rewrite E.
Qed.

(** X11.  The transcript file [main] writes is the trimmed, non-empty
    segment texts, one per line in segment order, each line ended by a
    newline: trimming the whole removes nothing more.  With no such text
    the file is a single newline. *)
Theorem main_transcript_file (segment_sec : Z)
    (transcribe : Path -> TranscribeResult) (segs : list Path) :
  out_txt (fst (main_loop segment_sec transcribe segs))
  = join newline
      (filter truthy (map (fun p => strip (text (transcribe p))) segs))
    ++ newline.
Proof.
  rewrite main_loop_texts. unfold out_txt. f_equal.
  set (parts := filter truthy _).
  assert (Hf : Forall (fun s => s <> [] /\ lstrip s = s /\ rstrip s = s) parts).
  { apply Forall_forall. intros s Hs. unfold parts in Hs.
    apply filter_In in Hs. destruct Hs as [Hin Ht].
    apply in_map_iff in Hin. destruct Hin as (p & <- & _).
    split; [|split; [apply lstrip_strip | apply rstrip_strip]].
    intros E. rewrite E in Ht. discriminate. }
  destruct (join_trimmed newline parts Hf) as (Hl & Hr & _).
  now apply strip_fixed.
Qed.

(** X12.  The block numbers of a subtitle file are decimal numerals of
    strictly increasing positions between 1 and the number of entries, one
    for each entry with a non-empty text: no number is used twice, whatever
    is dropped. *)
Theorem srt_numbers_increase (srt_entries : list Entry) :
  exists idxs : list Z,
    block_numbers (srt_lines srt_entries) = map str_int idxs
    /\ map decode_dec (block_numbers (srt_lines srt_entries)) = map Some idxs
    /\ StronglySorted Z.lt idxs
    /\ Forall (fun i => 1 <= i <= Z.of_nat (List.length srt_entries)) idxs
    /\ List.length idxs
       = List.length (filter (fun e => truthy (entry_text e)) srt_entries).
Proof.
  exists (map fst (retained srt_entries)).
  rewrite srt_numbers_are_positions. fold (retained srt_entries).
  assert (Hb : Forall (fun i => 1 <= i <= Z.of_nat (List.length srt_entries))
                 (map fst (retained srt_entries))).
  { apply Forall_map, Forall_forall. intros it Hit.
    now destruct (retained_in _ _ Hit). }
  split; [now rewrite map_map|]. split; [|split; [|split]].
  - rewrite !map_map. apply map_ext_in. intros it Hit.
    apply decode_str_int. destruct (retained_in _ _ Hit). lia.
  - apply enumerate_filter_sorted.
  - exact Hb.
  - rewrite length_map. apply retained_length.
Qed.

(** X13.  When no entry has an empty text, the blocks are numbered 1, 2,
    ..., n without a gap. *)
Theorem srt_numbers_contiguous (srt_entries : list Entry) :
  Forall (fun e => entry_text e <> []) srt_entries ->
  block_numbers (srt_lines srt_entries)
  = map (fun i => str_int (Z.of_nat i)) (seq 1 (List.length srt_entries)).
Proof.
  intros H. rewrite srt_numbers_are_positions. fold (retained srt_entries).
  rewrite <- (map_map fst str_int), (retained_all _ H). now rewrite map_map.
Qed.

Lemma srt_numbers_contiguous_witness :
  block_numbers
    (srt_lines [(0%Q, 21 # 4, lit "ABCD"); (26%Q, 105 # 4, lit "A")])
  = map (fun i => str_int (Z.of_nat i))
        (seq 1 (List.length
                  [(0%Q, 21 # 4, lit "ABCD"); (26%Q, 105 # 4, lit "A")])).
Proof.
  apply (srt_numbers_contiguous
           [(0%Q, 21 # 4, lit "ABCD"); (26%Q, 105 # 4, lit "A")]).
  repeat constructor; discriminate.
Defined.

Section Blank.

Lemma forallb_concat {A : Type} (f : A -> bool) (ls : list (list A)) :
  Forall (fun s => forallb f s = true) ls ->
  forallb f (List.concat ls) = true.
Proof.
  induction 1 as [|s ls Hs _ IH]; [reflexivity|].
  simpl. rewrite forallb_app. now rewrite Hs, IH.
Qed.

Lemma build_srt_blank (sws : list Subword) (off mx : Q) (mc : Z) (pad : Q) :
  Forall (fun s => forallb isspace (token s) = true) sws ->
  Forall (fun e => entry_text e = [])
    (build_srt_from_subwords sws off mx mc pad).
Proof.
  intros H.
  destruct (build_srt_buffers off mx mc pad sws) as (bufs & Hc & Hne & ->).
  apply Forall_map, Forall_forall. intros b Hb.
  rewrite Forall_forall in Hne. specialize (Hne b Hb).
  destruct b as [|first rest]; [congruence|].
  unfold entry_of_buffer, entry_text, tokens_to_text. cbn [snd].
  apply strip_nil_iff. rewrite join_nil_concat. apply forallb_concat.
  apply Forall_map, Forall_forall. intros s Hs.
  rewrite Forall_forall in H. apply H. rewrite <- Hc.
  apply in_concat. now exists (first :: rest).
Qed.

Lemma blank_texts_dropped (transcribe : Path -> TranscribeResult)
    (segs : list Path) :
  (forall p, In p segs -> forallb isspace (text (transcribe p)) = true) ->
  filter truthy (map (fun p => strip (text (transcribe p))) segs) = [].
Proof.
  induction segs as [|p l IH]; intros H; [reflexivity|].
  simpl. pose proof (H p (or_introl eq_refl)) as Hp.
  apply strip_nil_iff in Hp. rewrite Hp. simpl.
  apply IH. intros q Hq. apply H. now right.
Qed.

End Blank.

(** X14.  When the recogniser reports nothing but white space (the text of
    every segment is blank and every token, if there is any, is blank),
    both files [main] writes consist of a single newline. *)
Theorem main_blank_input (segment_sec : Z)
    (transcribe : Path -> TranscribeResult) (listing segs : list Path) :
  segment_audio_from_video listing = Some segs ->
  (forall p, In p segs ->
     forallb isspace (text (transcribe p)) = true
     /\ forall sws, subwords (transcribe p) = Some sws ->
          Forall (fun s => forallb isspace (token s) = true) sws) ->
  main segment_sec transcribe listing = Some (newline, newline).
Proof.
  intros Hl H. unfold main. rewrite Hl.
  pose proof (main_loop_texts segment_sec transcribe segs) as Ht.
  pose proof (main_loop_entries segment_sec transcribe segs) as He.
  pose proof (main_loop_texts_trimmed segment_sec transcribe segs) as Hr.
  destruct (main_loop segment_sec transcribe segs) as [ps es].
  cbn [fst snd] in *. f_equal. f_equal.
  - rewrite Ht, blank_texts_dropped; [reflexivity|].
    intros p Hp. now destruct (H p Hp).
  - rewrite (out_srt_blocks es Hr), retained_none; [reflexivity|].
    rewrite He. apply Forall_forall. intros e Hin.
    apply in_concat in Hin. destruct Hin as (l & Hl' & Hin).
    apply in_map_iff in Hl'. destruct Hl' as ([i p] & <- & Hp).
    cbn [fst snd] in Hin. unfold segment_entries in Hin.
    assert (Hps : In p segs).
    { clear - Hp. revert Hp. generalize 0.
      induction segs as [|y l IH]; intros k; simpl; [tauto|].
      intros [[= _ <-]|Hq]; [now left | right; eapply IH; eassumption]. }
    destruct (subwords (transcribe p)) as [sws|] eqn:Es; [|destruct Hin].
    destruct (H p Hps) as [_ Hs].
    pose proof (build_srt_blank sws (segment_offset_of segment_sec i)
                  default_max_line_sec default_max_chars default_pad_end_sec
                  (Hs sws Es)) as Hb.
    rewrite Forall_forall in Hb. now apply Hb.
Qed.

Lemma main_blank_input_witness :
  main 25 (fun _ => {| text := lit "  "; subwords := Some [subword 0 " "] |})
    example_listing
  = Some (newline, newline).
Proof.
  apply (main_blank_input 25
           (fun _ => {| text := lit "  "; subwords := Some [subword 0 " "] |})
           example_listing
           [lit "seg_000001.wav"; lit "seg_000002.wav"; lit "seg_000003.wav"]).
  - reflexivity.
  - intros p _. split; [reflexivity|]. intros sws E. injection E as <-.
    repeat constructor.
Defined.

(** X15.  A caption lies in the window of its segment: when the relative
    times of segment i do not decrease and lie between 0 and the segment
    duration d, every entry of the segment starts between i*d and (i+1)*d
    and ends no earlier than it starts and at most 0.25 s after (i+1)*d. *)
Theorem entry_window (segment_sec i : Z) (ret : TranscribeResult)
    (e : Entry) :
  well_timed segment_sec ret ->
  In e (segment_entries segment_sec i ret) ->
  (inject_Z i * inject_Z segment_sec <= start_sec e)%Q
  /\ (start_sec e <= inject_Z (i + 1) * inject_Z segment_sec)%Q
  /\ (start_sec e <= end_sec e)%Q
  /\ (end_sec e <= inject_Z (i + 1) * inject_Z segment_sec + (1 # 4))%Q.
Proof.
  intros H He. unfold segment_entries in He.
  destruct (subwords ret) as [sws|] eqn:E; [|destruct He].
  destruct (H sws E) as [Hs Hb]. unfold build_srt_default in He.
  destruct (build_srt_buffers (segment_offset_of segment_sec i)
              default_max_line_sec default_max_chars default_pad_end_sec sws)
    as (bufs & Hc & Hne & Eb).
  rewrite Eb in He. apply in_map_iff in He. destruct He as (b & <- & Hin).
  rewrite Forall_forall in Hne. pose proof (Hne b Hin) as Hbne.
  apply Qle_sorted_strongly in Hs. rewrite <- Hc in Hs.
  pose proof (buffer_of_sorted bufs b Hin Hs) as Hbs.
  destruct b as [|first rest]; [congruence|].
  pose proof (buffer_first_le_last first rest Hbs) as Hle.
  assert (Hsub : forall x, In x (first :: rest) -> (0 <= seconds x <= inject_Z segment_sec)%Q).
  { intros x Hx. rewrite Forall_forall in Hb. apply Hb. rewrite <- Hc.
    apply in_concat. now exists (first :: rest). }
  pose proof (Hsub first (or_introl eq_refl)) as Hf.
  pose proof (Hsub _ (last_in_nonempty (first :: rest) first ltac:(discriminate)))
    as Hl.
  unfold start_sec, end_sec, entry_of_buffer, segment_offset_of,
    default_pad_end_sec. cbn [fst snd].
  assert (Heq : (inject_Z (i + 1) * inject_Z segment_sec
                 == inject_Z i * inject_Z segment_sec + inject_Z segment_sec)%Q)
    by (rewrite inject_Z_plus; ring).
  rewrite Heq. set (o := (inject_Z i * inject_Z segment_sec)%Q).
  repeat split; lra.
Qed.

Lemma entry_window_witness :
  (inject_Z 1 * inject_Z 25 <= start_sec (25%Q, 105 # 4, lit "AB"))%Q
  /\ (start_sec (25%Q, 105 # 4, lit "AB") <= inject_Z (1 + 1) * inject_Z 25)%Q
  /\ (start_sec (25%Q, 105 # 4, lit "AB")
      <= end_sec (25%Q, 105 # 4, lit "AB"))%Q
  /\ (end_sec (25%Q, 105 # 4, lit "AB")
      <= inject_Z (1 + 1) * inject_Z 25 + (1 # 4))%Q.
Proof.
  apply (entry_window 25 1 (two_tokens []) (25%Q, 105 # 4, lit "AB")).
  - intros sws E. injection E as <-. split; repeat constructor; discriminate.
  - vm_compute. left. reflexivity.
Defined.

(** ** Running ffmpeg *)

Lemma sorted_nonempty_some (listing : list Path) :
  match segment_audio_from_video listing with
  | Some segs =>
      segs <> [] /\ Permutation segs (filter glob_seg_wav listing)
      /\ StronglySorted key_le segs
      /\ Forall (fun p => glob_seg_wav p = true /\ In p listing) segs
  | None => filter glob_seg_wav listing = []
  end.
Proof.
  unfold segment_audio_from_video. rewrite sorted_by_key_truthy.
  destruct (filter glob_seg_wav listing) as [|p l] eqn:E; [reflexivity|].
  cbn [truthy]. rewrite <- E.
  pose proof (sorted_by_key_perm (filter glob_seg_wav listing)) as P.
  split; [|split; [exact P|split; [apply sorted_by_key_sorted|]]].
  - intros En. rewrite En in P. apply Permutation_nil in P. congruence.
  - apply Forall_forall. intros q Hq.
    apply (Permutation_in _ P) in Hq. apply filter_In in Hq. tauto.
Qed.

(** X16.  [segment_audio_from_video] returns segments only when ffmpeg was
    found, ended with return code 0 and left at least one file matching
    seg_*.wav; the list it returns is then never empty, holds exactly the
    matching files of the directory and is sorted.  A missing ffmpeg is
    reported before anything is run; a failed run is reported with a message
    that starts with Command failed: and ends with what ffmpeg wrote to
    stderr; a run that leaves no segment file is an error of its own. *)
Theorem segmentation_outcome (which_ffmpeg : bool)
    (video_path out_pattern_path : pystr) (segment_sec : Z)
    (ffmpeg : Completed) (listing : list Path) :
  match segment_audio_from_video_env which_ffmpeg video_path
          out_pattern_path segment_sec ffmpeg listing with
  | inr segs =>
      which_ffmpeg = true /\ returncode ffmpeg = 0
      /\ segs <> [] /\ Permutation segs (filter glob_seg_wav listing)
      /\ StronglySorted key_le segs
      /\ Forall (fun p => glob_seg_wav p = true /\ In p listing) segs
  | inl FfmpegNotFound => which_ffmpeg = false
  | inl (CommandFailed message) =>
      which_ffmpeg = true /\ returncode ffmpeg <> 0
      /\ (exists rest, message = lit "Command failed:" ++ rest)
      /\ (exists before, message = before ++ stderr ffmpeg)
  | inl NoSegments =>
      which_ffmpeg = true /\ returncode ffmpeg = 0
      /\ filter glob_seg_wav listing = []
  end.
Proof.
  unfold segment_audio_from_video_env, run.
  destruct which_ffmpeg; [|reflexivity]. cbn [negb].
  destruct (Z.eqb_spec (returncode ffmpeg) 0) as [E|N]; cbn [negb].
  - pose proof (sorted_nonempty_some listing) as H.
    destruct (segment_audio_from_video listing) as [segs|]; tauto.
  - split; [reflexivity|]. split; [exact N|]. split.
    + eexists. reflexivity.
    + eexists. rewrite !app_assoc. reflexivity.
Qed.

(** ** pdf2pptx.py: the page images *)

Section Pages.

Variables (out_dir fmt : pystr).

Lemma page_path (i : Z) :
  os_path_join out_dir (page_name i fmt)
  = (page_prefix out_dir ++ lit "page_") ++ fmt_d 4 (i + 1) ++ lit "." ++ fmt.
Proof.
  unfold os_path_join, page_name, page_prefix.
  change (startswith (lit "/") (lit "page_" ++ fmt_d 4 (i + 1) ++ lit "." ++ fmt))
    with false. cbv iota.
  destruct (negb (truthy out_dir) || endswith (lit "/") out_dir);
    now rewrite <- !app_assoc.
Qed.

Lemma page_path_injective (i j : Z) :
  0 <= i -> 0 <= j ->
  os_path_join out_dir (page_name i fmt)
  = os_path_join out_dir (page_name j fmt) ->
  i = j.
Proof.
  intros Hi Hj E. rewrite !page_path in E.
  apply app_inv_head in E.
  destruct (fmt_d_spec 4 (i + 1) ltac:(lia)) as (_ & Vi & Li & _).
  destruct (fmt_d_spec 4 (j + 1) ltac:(lia)) as (_ & Vj & Lj & _).
  assert (Ed : fmt_d 4 (i + 1) = fmt_d 4 (j + 1))
    by (eapply app_inv_tail; exact E).
  rewrite Ed in Vi. lia.
Qed.

Lemma map_seq_NoDup (f : nat -> pystr) (a n : nat) :
  (forall i j : nat, f i = f j -> i = j) -> NoDup (map f (seq a n)).
Proof.
  intros Hf. revert a. induction n as [|n IH]; intros a; simpl; constructor.
  - intros Hin. apply in_map_iff in Hin. destruct Hin as (j & E & Hj).
    apply Hf in E. apply in_seq in Hj. lia.
  - apply IH.
Qed.

Lemma page_path_cmp (i j : Z) :
  0 <= i < j -> j + 1 < 10000 ->
  str_cmp (os_path_join out_dir (page_name i fmt))
          (os_path_join out_dir (page_name j fmt)) = Lt.
Proof.
  intros Hij Hj. rewrite !page_path.
  rewrite str_cmp_app, str_cmp_refl by reflexivity.
  assert (W : forall n, 0 <= n < 10000 -> List.length (fmt_d 4 n) = 4%nat).
  { intros n Hn. apply fmt_d_width; [change (10 ^ Z.of_nat 4) with 10000|];
      lia. }
  rewrite str_cmp_app by (rewrite !W; lia).
  destruct (fmt_d_spec 4 (i + 1) ltac:(lia)) as (Di & Vi & _).
  destruct (fmt_d_spec 4 (j + 1) ltac:(lia)) as (Dj & Vj & _).
  rewrite (str_cmp_digits _ _ Di Dj) by (rewrite !W; lia).
  rewrite Vi, Vj.
  assert (E : (i + 1 ?= j + 1) = Lt) by (apply Z.compare_lt_iff; lia).
  now rewrite E.
Qed.

End Pages.

(** X17.  [pdf_to_images] returns one path per page, and no two pages get
    the same path: no page image overwrites another, however many pages
    there are. *)
Theorem pdf_pages_distinct (out_dir : pystr) (n_pages : nat) (fmt : pystr) :
  List.length (pdf_to_images out_dir n_pages fmt) = n_pages
  /\ NoDup (pdf_to_images out_dir n_pages fmt).
Proof.
  unfold pdf_to_images. split; [now rewrite length_map, length_seq|].
  apply map_seq_NoDup. intros i j E.
  apply page_path_injective in E; lia.
Qed.

(** X18.  For a document of at most 9999 pages the paths of the page images
    are in strictly increasing dictionary order, so listing the directory by
    name gives the pages in order.  With more pages this fails: page 10000
    sorts before page 9999. *)
Theorem pdf_pages_sorted (out_dir : pystr) (n_pages : nat) (fmt : pystr) :
  Z.of_nat n_pages <= 9999 ->
  StronglySorted (fun a b => str_cmp a b = Lt)
    (pdf_to_images out_dir n_pages fmt)
  /\ str_cmp (page_name 9999 fmt) (page_name 9998 fmt) = Lt.
Proof.
  intros Hn. split; [|reflexivity]. unfold pdf_to_images.
  assert (G : forall a k, Z.of_nat (a + k) <= 9999 ->
            StronglySorted (fun x y => str_cmp x y = Lt)
              (map (fun i => os_path_join out_dir (page_name (Z.of_nat i) fmt))
                   (seq a k))).
  { intros a k. revert a. induction k as [|k IH]; intros a Hk; simpl;
      constructor.
    - apply IH. lia.
    - apply Forall_forall. intros x Hx. apply in_map_iff in Hx.
      destruct Hx as (j & <- & Hj). apply in_seq in Hj.
      apply page_path_cmp; lia. }
  apply G. lia.
Qed.

Lemma pdf_pages_sorted_witness :
  StronglySorted (fun a b => str_cmp a b = Lt)
    (pdf_to_images (lit "/tmp/pdf_pages") 3 (lit "png"))
  /\ str_cmp (page_name 9999 (lit "png")) (page_name 9998 (lit "png")) = Lt.
Proof.
  apply (pdf_pages_sorted (lit "/tmp/pdf_pages") 3 (lit "png")). lia.
Defined.
